(** * The reflective query dispatcher of IRIS-NLP.ipynb

    A shallow embedding of the two Python functions of the notebook cell
    "Querying the domain", [iknow_query] and [iknow_macro], and proofs of
    what they do.

    The functions talk to an InterSystems IRIS server through the Native API
    object [irispy] and read result rows with [iris.IRISList].  Neither is
    code of the notebook.  They appear here as the record [connection] (what
    the server and the library answer) and as the globals of [iris_state]
    (what the server stores); every statement holds for all of them.

    Conventions of the model:
    - a Python [str] is the [string] of the bytes of its UTF-8 encoding.
      The code compares strings, splits them at [,], [:], [=] and the
      space, and cuts them after a leading [&], [*] or [$$$]: all of it at
      ASCII characters, whose bytes the encoding keeps apart from those of
      every other character.  [upper()] is the one operation that looks
      into the other characters; it is a parameter ([upper] of
      [connection]) of which nothing is assumed;
    - a Python exception is the outcome [Raise]; state is passed explicitly,
      and a dispatch that raises leaves the state of the moment it raised;
    - subscripts of a global are integers; reading the class dictionary or a
      global changes nothing on the server;
    - the two [while True] loops run on fuel, enough of it to walk the whole
      global ([iknow_macro_fuel], [iknow_query_fuel]). *)

From Stdlib Require Import List String Ascii ZArith Bool Lia.
From Stdlib Require Import Sorted.
Import ListNotations.

Local Open Scope Z_scope.
Local Open Scope list_scope.

(** ** Python values and outcomes *)

(** The values a caller hands to the dispatcher and the values a decoded
    result row holds.  No coercion is ever applied to them. *)
Inductive pyval : Type :=
| PNone
| PStr (s : string)
| PInt (z : Z).

(** The exceptions the notebook code can provoke itself, and the ones a
    remote call hands back. *)
Inductive exn : Type :=
| IndexError
| AttributeError
| KeyError
| RemoteError (msg : string).

(** Result of running a piece of the notebook: a value, a raised exception,
    or [OutOfFuel] when a [while True] loop of the model was cut short.
    [iknow_query_fuel] and [iknow_macro_fuel] show the latter never
    happens. *)
Inductive outcome (A : Type) : Type :=
| Ok (a : A)
| Raise (e : exn)
| OutOfFuel.

Arguments Ok {A} a.
Arguments Raise {A} e.
Arguments OutOfFuel {A}.

Definition bind {A B : Type} (m : outcome A) (k : A -> outcome B) : outcome B :=
  match m with
  | Ok a => k a
  | Raise e => Raise e
  | OutOfFuel => OutOfFuel
  end.

Notation "x <- m ;; k" := (bind m (fun x => k))
  (at level 61, m at next level, right associativity).

(** [list(map(f, xs))] where [f] may raise: elements are evaluated left to
    right and the first exception aborts the whole expression. *)
Fixpoint map_outcome {A B : Type} (f : A -> outcome B) (xs : list A) : outcome (list B) :=
  match xs with
  | [] => Ok []
  | x :: xs' =>
      y <- f x ;;
      ys <- map_outcome f xs' ;;
      Ok (y :: ys)
  end.

(** [xs[i]] on a Python list. *)
Definition item {A : Type} (xs : list A) (i : nat) : outcome A :=
  match nth_error xs i with
  | Some x => Ok x
  | None => Raise IndexError
  end.

(** ** Strings *)

Module Str.

(** The double-quote character, and the two-character default literal that
    a FormalSpec uses for the empty string. *)
Definition dquote : ascii := ascii_of_nat 34.
Definition empty_literal : string := String dquote (String dquote EmptyString).

(** [s.split(sep)] for a one-character separator: never empty, adjacent
    separators give empty fields. *)
Fixpoint split (sep : ascii) (s : string) : list string :=
  match s with
  | EmptyString => [EmptyString]
  | String c s' =>
      if Ascii.eqb c sep then EmptyString :: split sep s'
      else match split sep s' with
           | [] => [String c EmptyString]
           | w :: ws => String c w :: ws
           end
  end.

(** The folding of the ASCII letters: what [s.upper()] is for a string [s]
    of ASCII characters.  The dispatcher is not modelled with it (see
    [upper] in [connection]); the demo server below, whose names are all
    ASCII, is. *)
Definition upper_ascii (c : ascii) : ascii :=
  let n := nat_of_ascii c in
  if (Nat.leb 97 n && Nat.leb n 122)%bool then ascii_of_nat (n - 32) else c.

Fixpoint ascii_upper (s : string) : string :=
  match s with
  | EmptyString => EmptyString
  | String c s' => String (upper_ascii c) (ascii_upper s')
  end.

(** [s[0:n]] and [s[n:]]. *)
Fixpoint slice_to (n : nat) (s : string) : string :=
  match n, s with
  | S n', String c s' => String c (slice_to n' s')
  | _, _ => EmptyString
  end.

Fixpoint slice_from (n : nat) (s : string) : string :=
  match n, s with
  | S n', String _ s' => slice_from n' s'
  | _, _ => s
  end.

(** [s[0]]. *)
Definition head (s : string) : outcome ascii :=
  match s with
  | EmptyString => Raise IndexError
  | String c _ => Ok c
  end.

(** [sep in s]. *)
Fixpoint contains (sep : ascii) (s : string) : bool :=
  match s with
  | EmptyString => false
  | String c s' => Ascii.eqb c sep || contains sep s'
  end.

End Str.

(** ** Dictionaries

    A Python [dict] with string keys: insertion ordered, assignment to an
    existing key keeps the key's position and replaces its value. *)

Module Dict.

Definition t (V : Type) : Type := list (string * V).

Fixpoint get {V : Type} (k : string) (d : t V) : option V :=
  match d with
  | [] => None
  | (k', v) :: d' => if String.eqb k k' then Some v else get k d'
  end.

Fixpoint set {V : Type} (k : string) (v : V) (d : t V) : t V :=
  match d with
  | [] => [(k, v)]
  | (k', v') :: d' =>
      if String.eqb k k' then (k', v) :: d' else (k', v') :: set k v d'
  end.

Definition mem {V : Type} (k : string) (d : t V) : bool :=
  match get k d with Some _ => true | None => false end.

Definition keys {V : Type} (d : t V) : list string := map fst d.

(** [{ **d, **more }]: the items of [more] assigned in order. *)
Definition update {V : Type} (d : t V) (more : list (string * V)) : t V :=
  fold_left (fun acc kv => set (fst kv) (snd kv) acc) more d.

End Dict.


(** ** The IRIS server as the notebook sees it *)

Definition pyval_eqb (a b : pyval) : bool :=
  match a, b with
  | PNone, PNone => true
  | PStr s, PStr s' => String.eqb s s'
  | PInt z, PInt z' => Z.eqb z z'
  | _, _ => false
  end.

(** One global: a sparse store of byte strings under integer subscripts. *)
Definition global : Type := list (Z * string).

(** All globals of the namespace, by the name the Native API call is given
    (the dispatcher passes [kwargs['outGlo']] on untouched, so a name is any
    Python value). *)
Definition globals : Type := pyval -> global.

(** One [irispy.classMethodVoid(api, method, *arguments)]. *)
Record call : Type := Call {
  call_api : string;
  call_method : string;
  call_arguments : list pyval
}.

Record iris_state : Type := IrisState {
  store : globals;
  calls : list call
}.

(** What is not notebook code:
    - [OpenId cls id] is [irispy.classMethodValue(cls, '%OpenId', id)]: the
      dictionary object (read through [proxy.get(property)]), or nothing when
      no such definition exists;
    - [classMethodVoid] is what the invoked query method does to the globals,
      and the exception it ends with, if any;
    - [IRISList] decodes the bytes of a [$list] into its elements, and
      [IRISList_past_end] is what [IRISList.get] answers for an index past
      the last element;
    - [upper] is Python's [str.upper()], which folds the letters of every
      script ([s.upper()] of a dotless i is [I]); nothing is assumed of
      it. *)
Record connection : Type := Connection {
  OpenId : string -> string -> option (string -> string);
  classMethodVoid : string -> string -> list pyval -> globals -> globals * option exn;
  IRISList : option string -> list pyval;
  IRISList_past_end : pyval + exn;
  upper : string -> string
}.

(** [irispy.nextSubscript(0, glo, k)]: the least subscript after [k]. *)
Fixpoint nextSubscript (g : global) (k : Z) : option Z :=
  match g with
  | [] => None
  | (j, _) :: g' =>
      match nextSubscript g' k with
      | Some m => if k <? j then Some (Z.min j m) else Some m
      | None => if k <? j then Some j else None
      end
  end.

(** [irispy.getString(glo, k)] and [irispy.getBytes(glo, k)]: the node's
    content, [None] for a node that is not set. *)
Fixpoint getString (g : global) (k : Z) : option string :=
  match g with
  | [] => None
  | (j, v) :: g' => if k =? j then Some v else getString g' k
  end.

Definition getBytes (g : global) (k : Z) : option string := getString g k.

(** [irispy.kill(glo)]. *)
Definition kill (glo : pyval) (gs : globals) : globals :=
  fun name => if pyval_eqb name glo then [] else gs name.

(** A value returned or an exception raised. *)
Definition answer {A : Type} (a : A + exn) : outcome A :=
  match a with
  | inl v => Ok v
  | inr e => Raise e
  end.

(** [raw_row.get(n)], [n] counted from one. *)
Definition IRISList_get (irispy : connection) (raw_row : list pyval) (n : nat) : outcome pyval :=
  match n with
  | O => answer (IRISList_past_end irispy)
  | S i =>
      match nth_error raw_row i with
      | Some v => Ok v
      | None => answer (IRISList_past_end irispy)
      end
  end.

(** ** iknow_macro *)

(** The include file [%IKPublic.INC], one line per subscript. *)
Definition INC : pyval :=
  PStr ("rINC(" ++ String Str.dquote "%IKPublic" ++ String Str.dquote ",0)")%string.

(** [(len(raw_line) > 1) and (raw_line[1] == macro)] *)
Definition line_matches (raw_line : list string) (macro : string) : bool :=
  Nat.ltb 1 (List.length raw_line) &&
  match nth_error raw_line 1 with
  | Some name => String.eqb name macro
  | None => false
  end.

(** The [while True] loop of [iknow_macro], [fuel] rounds of it. *)
Fixpoint iknow_macro_loop (fuel : nat) (lines : global) (macro : string) (subscript : Z)
  : outcome pyval :=
  match fuel with
  | O => OutOfFuel
  | S fuel' =>
      match nextSubscript lines subscript with
      | None => Ok PNone
      | Some subscript' =>
          match getString lines subscript' with
          | None => Raise AttributeError
          | Some line =>
              let raw_line := Str.split " " line in
              if line_matches raw_line macro then
                value <- item raw_line 2 ;;
                Ok (PStr value)
              else iknow_macro_loop fuel' lines macro subscript'
          end
      end
  end.

Definition strip_macro_prefix (macro : string) : string :=
  if String.eqb (Str.slice_to 3 macro) "$$$" then Str.slice_from 3 macro else macro.

Definition iknow_macro (gs : globals) (macro : string) : outcome pyval :=
  let macro := strip_macro_prefix macro in
  iknow_macro_loop (S (List.length (gs INC))) (gs INC) macro 0.

(** ** iknow_query *)

(** [return_cols], after [return_types] was computed too. *)
Definition return_cols (irispy : connection) (api method : string) : outcome (list string) :=
  match OpenId irispy "%Dictionary.ParameterDefinition" (api ++ "||" ++ method ++ "RT")%string with
  | None => Raise AttributeError
  | Some proxy =>
      let raw := Str.split "," (proxy "Default"%string) in
      return_cols <- map_outcome (fun x => item (Str.split ":" x) 0) raw ;;
      return_types <- map_outcome (fun x => item (Str.split ":" x) 1) raw ;;
      Ok return_cols
  end.

(** [for k, v in kwargs.items()]: the named arguments go into [kwupper]
    under their upper-cased names, the reserved [outGlo] is passed over. *)
Fixpoint kwupper_loop (irispy : connection) (items : list (string * pyval))
  (kwupper : Dict.t pyval)
  : Dict.t pyval :=
  match items with
  | [] => kwupper
  | (k, v) :: items' =>
      if String.eqb k "outGlo" then kwupper_loop irispy items' kwupper
      else kwupper_loop irispy items' (Dict.set (upper irispy k) v kwupper)
  end.

Definition kwupper (irispy : connection) (kwargs : Dict.t pyval) : Dict.t pyval :=
  kwupper_loop irispy kwargs [].

(** The upper-cased declared name of a FormalSpec entry and the entry split
    at [=]: [argument_name] and [argument] of the loop body. *)
Definition parse_argument (irispy : connection) (argument : string) : outcome (string * list string) :=
  c <- Str.head argument ;;
  let argument :=
    if (Ascii.eqb c "&" || Ascii.eqb c "*")%bool then Str.slice_from 1 argument else argument in
  let argument := Str.split "=" argument in
  a0 <- item argument 0 ;;
  name <- item (Str.split ":" a0) 0 ;;
  Ok (upper irispy name, argument).

(** The value one round of the loop appends to [full_args], for the entry
    [argument] at index [i >= 2] of the FormalSpec. *)
Definition bind_argument (irispy : connection) (gs : globals) (kwupper : Dict.t pyval) (args : list pyval)
  (i : nat) (argument : string) : outcome pyval :=
  parsed <- parse_argument irispy argument ;;
  let argument_name := fst parsed in
  let argument := snd parsed in
  match Dict.get argument_name kwupper with
  | Some v => Ok v
  | None =>
      if Nat.ltb (i - 2) (List.length args) then item args (i - 2)
      else if Nat.ltb 1 (List.length argument) then
        default <- item argument 1 ;;
        if String.eqb default Str.empty_literal then Ok (PStr "")
        else if String.eqb (Str.slice_to 3 default) "$$$" then iknow_macro gs default
        else Ok (PStr default)
      else Ok PNone
  end.

(** [for i, argument in enumerate(raw)], from index [i] on. *)
Fixpoint full_args_loop (irispy : connection) (gs : globals) (kwupper : Dict.t pyval) (args : list pyval)
  (i : nat) (raw : list string) (full_args : list pyval) : outcome (list pyval) :=
  match raw with
  | [] => Ok full_args
  | argument :: raw' =>
      if Nat.ltb i 2 then full_args_loop irispy gs kwupper args (S i) raw' full_args
      else
        v <- bind_argument irispy gs kwupper args i argument ;;
        full_args_loop irispy gs kwupper args (S i) raw' (full_args ++ [v])
  end.

(** [full_args] as it stands when the remote method is called. *)
Definition full_args (irispy : connection) (gs : globals) (api method : string)
  (args : list pyval) (kwargs : Dict.t pyval) : outcome (list pyval) :=
  let kwupper := kwupper irispy kwargs in
  match OpenId irispy "%Dictionary.CompiledMethod" (api ++ "||" ++ method)%string with
  | None => Raise AttributeError
  | Some proxy =>
      let raw := Str.split "," (proxy "FormalSpec"%string) in
      full_args_loop irispy gs kwupper args 0 raw []
  end.

(** [for i, col in enumerate(return_cols): row[col] = raw_row.get(i+1)] *)
Fixpoint row_loop (irispy : connection) (raw_row : list pyval) (i : nat)
  (cols : list string) (row : Dict.t pyval) : outcome (Dict.t pyval) :=
  match cols with
  | [] => Ok row
  | col :: cols' =>
      v <- IRISList_get irispy raw_row (i + 1) ;;
      row_loop irispy raw_row (S i) cols' (Dict.set col v row)
  end.

(** The [while True] loop over the output global, [fuel] rounds of it. *)
Fixpoint result_loop (fuel : nat) (irispy : connection) (out : global)
  (return_cols : list string) (subscript : Z) (result : list (Dict.t pyval))
  : outcome (list (Dict.t pyval)) :=
  match fuel with
  | O => OutOfFuel
  | S fuel' =>
      match nextSubscript out subscript with
      | None => Ok result
      | Some subscript' =>
          let raw_row := IRISList irispy (getBytes out subscript') in
          row <- row_loop irispy raw_row 0 return_cols [] ;;
          result_loop fuel' irispy out return_cols subscript' (result ++ [row])
      end
  end.

(** [{ 'outGlo': '^result', **kwargs }] *)
Definition with_outGlo (kwargs : list (string * pyval)) : Dict.t pyval :=
  Dict.update [("outGlo"%string, PStr "^result")] kwargs.

(** [iknow_query(api, method, domain_id, *args, **kwargs)] run in server
    state [st]: what it returns or raises, and the state it leaves. *)
Definition iknow_query (irispy : connection) (api method : string) (domain_id : pyval)
  (args : list pyval) (kwargs : list (string * pyval)) (st : iris_state)
  : outcome (list (Dict.t pyval)) * iris_state :=
  let kwargs := with_outGlo kwargs in
  match Dict.get "outGlo" kwargs with
  | None => (Raise KeyError, st)
  | Some outGlo =>
      match
        (return_cols <- return_cols irispy api method ;;
         full_args <- full_args irispy (store st) api method args kwargs ;;
         Ok (return_cols, full_args))
      with
      | Raise e => (Raise e, st)
      | OutOfFuel => (OutOfFuel, st)
      | Ok (return_cols, full_args) =>
          let arguments := outGlo :: domain_id :: full_args in
          let (gs, raised) := classMethodVoid irispy api method arguments (store st) in
          let st := IrisState gs (calls st ++ [Call api method arguments]) in
          match raised with
          | Some e => (Raise e, st)
          | None =>
              match
                result_loop (S (List.length (gs outGlo))) irispy (gs outGlo) return_cols 0 []
              with
              | Raise e => (Raise e, st)
              | OutOfFuel => (OutOfFuel, st)
              | Ok result => (Ok result, IrisState (kill outGlo gs) (calls st))
              end
          end
      end
  end.

(** ** A server to run the dispatcher against

    The two calls of the notebook go to [%iKnow.Queries.EntityAPI].  [Demo]
    is a small server in their image: a class dictionary given as a table, an
    include file, and query methods that leave prepared rows in the output
    global.  Rows are written with [|] between the fields, a stand-in for
    the binary [$list] encoding that [iris.IRISList] reads.  Every name in
    it and in the calls made to it is ASCII, so that [str.upper()] is, on
    all of them, the folding of the ASCII letters. *)

Module Demo.

Definition definition : Type := (string * string) * (string * string).

(** A dictionary holding the listed definitions, each with one property. *)
Fixpoint dictionary (defs : list definition) (cls id : string) : option (string -> string) :=
  match defs with
  | [] => None
  | ((cls', id'), (property, value)) :: defs' =>
      if (String.eqb cls cls' && String.eqb id id')%bool
      then Some (fun p => if String.eqb p property then value else EmptyString)
      else dictionary defs' cls id
  end.

Definition decode (bytes : option string) : list pyval :=
  match bytes with
  | None => []
  | Some b => map PStr (Str.split "|" b)
  end.

(** A query method that stores [rows] under the global named by its first
    argument and then ends with [raised]. *)
Definition writes (rows : global) (raised : option exn)
  (api method : string) (arguments : list pyval) (gs : globals) : globals * option exn :=
  match arguments with
  | glo :: _ => (fun name => if pyval_eqb name glo then rows else gs name, raised)
  | [] => (gs, raised)
  end.

Definition server (defs : list definition) (rows : global) (raised : option exn)
  (past_end : pyval + exn) : connection :=
  Connection (dictionary defs) (writes rows raised) decode past_end Str.ascii_upper.

Definition api : string := "%iKnow.Queries.EntityAPI".

Definition GetTopRT : definition :=
  (("%Dictionary.ParameterDefinition", "%iKnow.Queries.EntityAPI||GetTopRT"),
   ("Default", "entUniId:%Integer,entity:%String,frequency:%Integer,spread:%Integer"))%string.

Definition GetTop : definition :=
  (("%Dictionary.CompiledMethod", "%iKnow.Queries.EntityAPI||GetTop"),
   ("FormalSpec",
    "&result,domainid:%Integer,page:%Integer=1,pagesize:%Integer=10,filter:%iKnow.Filters.Filter="
    ++ Str.empty_literal
    ++ ",filtermode:%Integer=$$$FILTERONLY,sorttype:%Integer=$$$SORTBYFREQUENCY"))%string.

Definition include_file : global :=
  [(1, "#define FILTERONLY 1"); (2, "#define SORTBYFREQUENCY 3");
   (3, "#define SORTBYSPREAD 4")]%string.

Definition top_rows : global :=
  [(1, "1|hello|2|2"); (2, "7|text|2|2")]%string.

(** The namespace before a dispatch: only the include file is there. *)
Definition fresh (inc : global) : iris_state :=
  IrisState (fun name => if pyval_eqb name INC then inc else []) [].

(** A method with two parameters after the output global and the domain,
    and its two-column result. *)
Definition GetPageRT : definition :=
  (("%Dictionary.ParameterDefinition", "%iKnow.Queries.EntityAPI||GetPageRT"),
   ("Default", "entity:%String,frequency:%Integer"))%string.

Definition GetPage : definition :=
  (("%Dictionary.CompiledMethod", "%iKnow.Queries.EntityAPI||GetPage"),
   ("FormalSpec", "&result,domainid:%Integer,page:%Integer=1,pagesize:%Integer=10"))%string.

(** A result schema whose second entry has no type. *)
Definition GetBareRT : definition :=
  (("%Dictionary.ParameterDefinition", "%iKnow.Queries.EntityAPI||GetBareRT"),
   ("Default", "entUniId:%Integer,entity"))%string.

Definition GetBare : definition :=
  (("%Dictionary.CompiledMethod", "%iKnow.Queries.EntityAPI||GetBare"),
   ("FormalSpec", "&result,domainid:%Integer"))%string.

(** A method two of whose parameters differ in letter case only (names of
    ObjectScript variables are case sensitive). *)
Definition GetTwinRT : definition :=
  (("%Dictionary.ParameterDefinition", "%iKnow.Queries.EntityAPI||GetTwinRT"),
   ("Default", "entity:%String,frequency:%Integer"))%string.

Definition GetTwin : definition :=
  (("%Dictionary.CompiledMethod", "%iKnow.Queries.EntityAPI||GetTwin"),
   ("FormalSpec", "&result,domainid:%Integer,x:%Integer=1,X:%Integer=2"))%string.

Definition classes : list definition :=
  [GetTopRT; GetTop; GetPageRT; GetPage; GetBareRT; GetBare; GetTwinRT; GetTwin].

(** Rows of two fields each, and one row of a single field. *)
Definition page_rows : global := [(1, "fish|3"); (2, "cat|1")]%string.
Definition short_rows : global := [(1, "fish")]%string.

(** An include file with a [#define] that lacks its value. *)
Definition broken_include_file : global :=
  [(1, "#define FILTERONLY"); (2, "#define SORTBYFREQUENCY 3")]%string.

(** The server of the notebook run; [IRISList.get] past the end answers
    [None]. *)
Definition irispy : connection := server classes top_rows None (inl PNone).

(** The same with two-field rows, with a short row, and with a short row
    read by an [IRISList.get] that raises past the end. *)
Definition paged : connection := server classes page_rows None (inl PNone).
Definition lenient : connection := server classes short_rows None (inl PNone).
Definition strict : connection := server classes short_rows None (inr IndexError).

(** A server whose query method fails after it has written its rows. *)
Definition failing : connection :=
  server classes top_rows (Some (RemoteError "<STORE>")) (inl PNone).

(** The namespace before the notebook's dispatches. *)
Definition st0 : iris_state := fresh include_file.

End Demo.


(** ** Notions the statements below are written with *)

(** The text of [s] before its first [sep] (all of [s] when it has none). *)
Fixpoint before (sep : ascii) (s : string) : string :=
  match s with
  | EmptyString => EmptyString
  | String c s' => if Ascii.eqb c sep then EmptyString else String c (before sep s')
  end.

(** The names of a result schema: of each comma-separated entry, the part
    before the colon. *)
Definition column_names (schema : string) : list string :=
  map (before ":") (Str.split "," schema).

(** [cols] with every name that is in [seen], or that occurred earlier in
    [cols], removed: the distinct names in the order of first occurrence. *)
Fixpoint first_occurrences (seen cols : list string) : list string :=
  match cols with
  | [] => []
  | c :: cols' =>
      if existsb (String.eqb c) seen then first_occurrences seen cols'
      else c :: first_occurrences (c :: seen) cols'
  end.

(** How many nodes of a global lie after subscript [k]. *)
Definition count_after (g : global) (k : Z) : nat :=
  List.length (filter (fun e => k <? fst e) g).

(** A FormalSpec entry without its by-reference or output marker. *)
Definition unmarked (argument : string) : string :=
  match argument with
  | EmptyString => EmptyString
  | String c rest => if (Ascii.eqb c "&" || Ascii.eqb c "*")%bool then rest else argument
  end.

(** The declared name of a FormalSpec entry: the marker dropped, then the
    text before [=] and before [:]. *)
Definition declared_name (argument : string) : string :=
  before ":" (before "=" (unmarked argument)).

(** The declared default literal of a FormalSpec entry: what stands between
    the first [=] and the next one, if there is a [=]. *)
Definition declared_default (argument : string) : option string :=
  nth_error (Str.split "=" (unmarked argument)) 1.

(** What a parameter left to its declared default is bound to. *)
Definition default_value (gs : globals) (argument : string) : outcome pyval :=
  match declared_default argument with
  | Some default =>
      if String.eqb default Str.empty_literal then Ok (PStr "")
      else if String.eqb (Str.slice_to 3 default) "$$$" then iknow_macro gs default
      else Ok (PStr default)
  | None => Ok PNone
  end.

(** A named argument that the dispatcher reads as naming the parameter
    [argument]: not the reserved [outGlo], and equal to the declared name
    when both are put in upper case. *)
Definition names (irispy : connection) (k : string) (argument : string) : Prop :=
  k <> "outGlo"%string /\ upper irispy k = upper irispy (declared_name argument).

(** No named argument of [kwargs] names [argument]. *)
Definition unnamed (irispy : connection) (kwargs : list (string * pyval))
  (argument : string) : Prop :=
  forall k v, In (k, v) kwargs -> ~ names irispy k argument.

(** [argument] is entry [i] of the method's FormalSpec, past the two
    leading entries that the dispatcher fills itself. *)
Definition parameter (irispy : connection) (api method : string) (i : nat)
  (argument : string) : Prop :=
  (2 <= i)%nat /\
  exists proxy,
    OpenId irispy "%Dictionary.CompiledMethod" (api ++ "||" ++ method)%string = Some proxy /\
    nth_error (Str.split "," (proxy "FormalSpec"%string)) i = Some argument.

(** The dispatch binds FormalSpec entry [i] to [x]: the round of the loop
    for that entry appends [x]; [x] is the element of [full_args] at index
    [i - 2] once the loop is through; and a remote call that the dispatch
    makes has [x] as its argument [i] (arguments 0 and 1 being the output
    global and the domain). *)
Definition binds (irispy : connection) (api method : string) (domain_id : pyval)
  (args : list pyval) (kwargs : list (string * pyval)) (st : iris_state)
  (i : nat) (argument : string) (x : pyval) : Prop :=
  bind_argument irispy (store st) (kwupper irispy (with_outGlo kwargs)) args i argument = Ok x /\
  (forall v, full_args irispy (store st) api method args (with_outGlo kwargs) = Ok v ->
             nth_error v (i - 2) = Some x) /\
  (forall r st' c,
      iknow_query irispy api method domain_id args kwargs st = (r, st') ->
      calls st' = calls st ++ [c] ->
      nth_error (call_arguments c) i = Some x).

(** The subscripts that a walk over the global [g] from [k] on comes by:
    [ks] lists, in ascending order and once each, the subscripts of [g]
    after [k]. *)
Definition walk (g : global) (k : Z) (ks : list Z) : Prop :=
  StronglySorted Z.lt ks /\
  forall j, In j ks <-> In j (map fst g) /\ k < j.

(** The output global a call is given: the caller's [outGlo], or
    [^result]. *)
Definition output_global (kwargs : list (string * pyval)) : pyval :=
  match Dict.get "outGlo" kwargs with
  | Some glo => glo
  | None => PStr "^result"
  end.

(** ** The first version of the dispatcher

    The notebook's first revision defines [iknow_query] with the output
    global as its only keyword and passes the positional arguments on as
    they come: no FormalSpec is read, no default filled in. *)

Module Earlier.

(** [iknow_query(api, method, domain_id, *args, outGlo='^result')] *)
Definition iknow_query (irispy : connection) (api method : string) (domain_id : pyval)
  (args : list pyval) (outGlo : option pyval) (st : iris_state)
  : outcome (list (Dict.t pyval)) * iris_state :=
  let outGlo := match outGlo with Some glo => glo | None => PStr "^result" end in
  match return_cols irispy api method with
  | Raise e => (Raise e, st)
  | OutOfFuel => (OutOfFuel, st)
  | Ok return_cols =>
      let arguments := outGlo :: domain_id :: args in
      let (gs, raised) := classMethodVoid irispy api method arguments (store st) in
      let st := IrisState gs (calls st ++ [Call api method arguments]) in
      match raised with
      | Some e => (Raise e, st)
      | None =>
          match
            result_loop (S (List.length (gs outGlo))) irispy (gs outGlo) return_cols 0 []
          with
          | Raise e => (Raise e, st)
          | OutOfFuel => (OutOfFuel, st)
          | Ok result => (Ok result, IrisState (kill outGlo gs) (calls st))
          end
      end
  end.

End Earlier.

(** ** Strings and dictionaries *)

Lemma split_not_nil (sep : ascii) (s : string) : Str.split sep s <> [].
Proof.
  destruct s as [|c s]; simpl; [discriminate|].
  destruct (Ascii.eqb c sep); [discriminate|].
  destruct (Str.split sep s); discriminate.
Qed.

Lemma split_head (sep : ascii) (s : string) :
  nth_error (Str.split sep s) 0 = Some (before sep s).
Proof.
  induction s as [|c s IH]; simpl; [reflexivity|].
  destruct (Ascii.eqb c sep); [reflexivity|].
  destruct (Str.split sep s) as [|w ws]; simpl in *; [discriminate|].
  now inversion IH.
Qed.

Lemma item_split_0 (sep : ascii) (s : string) :
  item (Str.split sep s) 0 = Ok (before sep s).
Proof. unfold item. now rewrite split_head. Qed.

Lemma split_without_sep (sep : ascii) (s : string) :
  Str.contains sep s = false -> Str.split sep s = [s].
Proof.
  induction s as [|c s IH]; simpl; [reflexivity|].
  destruct (Ascii.eqb c sep); simpl; [discriminate|].
  intros H. now rewrite (IH H).
Qed.

Lemma split_with_sep (sep : ascii) (s : string) :
  Str.contains sep s = true -> (1 < List.length (Str.split sep s))%nat.
Proof.
  induction s as [|c s IH]; simpl; [discriminate|].
  destruct (Ascii.eqb c sep); simpl.
  - intros _. pose proof (split_not_nil sep s).
    destruct (Str.split sep s); [congruence | simpl; lia].
  - intros H. specialize (IH H).
    destruct (Str.split sep s); simpl in *; lia.
Qed.

Lemma get_set {V : Type} (k k' : string) (v : V) (d : Dict.t V) :
  Dict.get k (Dict.set k' v d) = if String.eqb k k' then Some v else Dict.get k d.
Proof.
  induction d as [|[k0 v0] d IH]; simpl.
  - destruct (String.eqb k k'); reflexivity.
  - destruct (String.eqb_spec k' k0) as [->|Hne]; simpl.
    + destruct (String.eqb k k0); reflexivity.
    + destruct (String.eqb_spec k k0) as [->|Hne'].
      * destruct (String.eqb_spec k0 k'); [congruence | reflexivity].
      * exact IH.
Qed.

Lemma mem_keys {V : Type} (k : string) (d : Dict.t V) :
  Dict.mem k d = existsb (String.eqb k) (Dict.keys d).
Proof.
  unfold Dict.mem. induction d as [|[k0 v0] d IH]; simpl; [reflexivity|].
  destruct (String.eqb k k0); simpl; [reflexivity | exact IH].
Qed.

Lemma keys_set {V : Type} (k : string) (v : V) (d : Dict.t V) :
  Dict.keys (Dict.set k v d) =
  if Dict.mem k d then Dict.keys d else Dict.keys d ++ [k].
Proof.
  unfold Dict.mem. induction d as [|[k0 v0] d IH]; simpl; [reflexivity|].
  destruct (String.eqb k k0); simpl; [reflexivity|].
  rewrite IH. destruct (Dict.get k d); reflexivity.
Qed.

Lemma set_fresh {V : Type} (k : string) (v : V) (d : Dict.t V) :
  ~ In k (Dict.keys d) -> Dict.set k v d = d ++ [(k, v)].
Proof.
  induction d as [|[k0 v0] d IH]; simpl; [reflexivity|].
  intros H. destruct (String.eqb_spec k k0) as [->|Hne]; [tauto|].
  rewrite IH; [reflexivity | tauto].
Qed.

Lemma existsb_eqb_In (c : string) (l : list string) :
  existsb (String.eqb c) l = true <-> In c l.
Proof.
  rewrite existsb_exists. split.
  - intros [x [Hin Heq]]. apply String.eqb_eq in Heq. now subst.
  - intros H. exists c. split; [exact H | apply String.eqb_refl].
Qed.

Lemma first_occurrences_ext (s1 s2 cols : list string) :
  (forall x, In x s1 <-> In x s2) ->
  first_occurrences s1 cols = first_occurrences s2 cols.
Proof.
  revert s1 s2. induction cols as [|c cols IH]; intros s1 s2 H; simpl; [reflexivity|].
  assert (E : existsb (String.eqb c) s1 = existsb (String.eqb c) s2).
  { apply eq_true_iff_eq. rewrite !existsb_eqb_In. apply H. }
  rewrite E. destruct (existsb (String.eqb c) s2).
  - now apply IH.
  - f_equal. apply IH. intros x. simpl. rewrite H. reflexivity.
Qed.

Lemma first_occurrences_In (seen cols : list string) (c : string) :
  In c (first_occurrences seen cols) <-> In c cols /\ ~ In c seen.
Proof.
  revert seen. induction cols as [|c0 cols IH]; intros seen; simpl; [tauto|].
  destruct (existsb (String.eqb c0) seen) eqn:E.
  - apply existsb_eqb_In in E. rewrite IH. split.
    + tauto.
    + intros [[->|H] Hn]; tauto.
  - assert (Hn : ~ In c0 seen) by (rewrite <- existsb_eqb_In, E; discriminate).
    simpl. rewrite IH. simpl. split.
    + intros [->|[H1 H2]]; tauto.
    + intros [[->|H1] H2]; [tauto|].
      destruct (string_dec c0 c) as [->|Hne]; [tauto|]. right. tauto.
Qed.

Lemma first_occurrences_NoDup (seen cols : list string) :
  NoDup cols -> (forall c, In c cols -> ~ In c seen) ->
  first_occurrences seen cols = cols.
Proof.
  revert seen. induction cols as [|c cols IH]; intros seen Hnd Hdis; simpl; [reflexivity|].
  inversion Hnd as [|? ? Hc Hnd']; subst.
  destruct (existsb (String.eqb c) seen) eqn:E.
  - apply existsb_eqb_In in E. exfalso. apply (Hdis c); simpl; tauto.
  - f_equal. apply IH; [exact Hnd'|].
    intros x Hx [<-|Hs]; [tauto|]. apply (Hdis x); simpl; tauto.
Qed.

(** ** Walking a global *)

Lemma nextSubscript_spec (g : global) (k : Z) :
  match nextSubscript g k with
  | Some j => k < j /\ In j (map fst g) /\ forall i, In i (map fst g) -> k < i -> j <= i
  | None => forall i, In i (map fst g) -> i <= k
  end.
Proof.
  induction g as [|[j v] g IH]; simpl; [tauto|].
  destruct (nextSubscript g k) as [m|]; destruct (Z.ltb_spec k j).
  - destruct IH as [H1 [H2 H3]]. split; [lia|]. split.
    + destruct (Z.min_spec j m) as [[_ ->]|[_ ->]]; tauto.
    + intros i [<-|Hi] Hk; [lia|]. specialize (H3 i Hi Hk). lia.
  - destruct IH as [H1 [H2 H3]]. split; [lia|]. split; [tauto|].
    intros i [<-|Hi] Hk; [lia|]. now apply H3.
  - split; [lia|]. split; [tauto|].
    intros i [<-|Hi] Hk; [lia|]. specialize (IH i Hi). lia.
  - intros i [<-|Hi]; [lia|]. now apply IH.
Qed.

Lemma getString_In (g : global) (k : Z) :
  In k (map fst g) -> exists v, getString g k = Some v /\ In (k, v) g.
Proof.
  induction g as [|[j v] g IH]; simpl; [tauto|].
  intros H. destruct (Z.eqb_spec k j) as [->|Hne].
  - exists v. tauto.
  - destruct H as [<-|H]; [congruence|].
    destruct (IH H) as [w [Hw Hin]]. exists w. tauto.
Qed.

Lemma count_after_step (g : global) (k j : Z) :
  k < j -> In j (map fst g) -> (count_after g j < count_after g k)%nat.
Proof.
  unfold count_after. intros Hkj. induction g as [|[i v] g IH]; simpl; [tauto|].
  intros Hin.
  assert (Hle : (count_after g j <= count_after g k)%nat).
  { clear - Hkj. unfold count_after. induction g as [|[i v] g IH]; simpl; [lia|].
    destruct (Z.ltb_spec j i); destruct (Z.ltb_spec k i); simpl; lia. }
  unfold count_after in Hle.
  destruct (Z.ltb_spec j i); destruct (Z.ltb_spec k i); simpl; try lia.
  - destruct Hin as [->|Hin]; [lia|]. specialize (IH Hin). lia.
  - destruct Hin as [->|Hin]; [lia|]. now apply IH.
Qed.

Lemma row_loop_fuel (irispy : connection) (raw_row : list pyval) (cols : list string) :
  forall i row, row_loop irispy raw_row i cols row <> OutOfFuel.
Proof.
  induction cols as [|c cols IH]; intros i row; simpl; [discriminate|].
  unfold IRISList_get. rewrite Nat.add_1_r.
  destruct (nth_error raw_row i); simpl; [apply IH|].
  destruct (IRISList_past_end irispy); simpl; [apply IH | discriminate].
Qed.

Lemma result_loop_fuel (irispy : connection) (out : global) (cols : list string) :
  forall fuel subscript result,
    (count_after out subscript < fuel)%nat ->
    result_loop fuel irispy out cols subscript result <> OutOfFuel.
Proof.
  induction fuel as [|fuel IH]; intros k result Hlt; [lia|]. simpl.
  pose proof (nextSubscript_spec out k) as Hn.
  destruct (nextSubscript out k) as [j|]; [|discriminate].
  destruct Hn as [Hkj [Hin _]].
  pose proof (row_loop_fuel irispy (IRISList irispy (getBytes out j)) cols 0%nat []) as Hr.
  destruct (row_loop irispy _ 0 cols []); simpl; [|discriminate|congruence].
  apply IH. pose proof (count_after_step out k j Hkj Hin). lia.
Qed.

Lemma count_after_le (g : global) (k : Z) : (count_after g k <= List.length g)%nat.
Proof. unfold count_after. apply filter_length_le. Qed.

Lemma iknow_macro_loop_fuel (lines : global) (macro : string) :
  forall fuel subscript,
    (count_after lines subscript < fuel)%nat ->
    iknow_macro_loop fuel lines macro subscript <> OutOfFuel.
Proof.
  induction fuel as [|fuel IH]; intros k Hlt; [lia|]. simpl.
  pose proof (nextSubscript_spec lines k) as Hn.
  destruct (nextSubscript lines k) as [j|]; [|discriminate].
  destruct Hn as [Hkj [Hin _]].
  destruct (getString lines j); [|discriminate].
  destruct (line_matches _ macro).
  - unfold item. destruct (nth_error _ 2); simpl; discriminate.
  - apply IH. pose proof (count_after_step lines k j Hkj Hin). lia.
Qed.

(** The scan of the include file always comes to an end. *)
Lemma iknow_macro_fuel (gs : globals) (macro : string) :
  iknow_macro gs macro <> OutOfFuel.
Proof.
  unfold iknow_macro. apply iknow_macro_loop_fuel.
  pose proof (count_after_le (gs INC) 0). lia.
Qed.

(** ** Rows *)

Lemma row_loop_keys (irispy : connection) (raw_row : list pyval) (cols : list string) :
  forall i row row',
    row_loop irispy raw_row i cols row = Ok row' ->
    Dict.keys row' = Dict.keys row ++ first_occurrences (Dict.keys row) cols.
Proof.
  induction cols as [|c cols IH]; intros i row row'; simpl.
  - intros H. inversion H. now rewrite app_nil_r.
  - destruct (IRISList_get irispy raw_row (i + 1)) as [v| |]; simpl; try discriminate.
    intros H. rewrite (IH _ _ _ H), keys_set, mem_keys.
    destruct (existsb (String.eqb c) (Dict.keys row)) eqn:E; [reflexivity|].
    rewrite <- app_assoc. simpl. do 2 f_equal.
    apply first_occurrences_ext. intros x. rewrite in_app_iff. simpl. tauto.
Qed.

Lemma result_loop_rows (P : Dict.t pyval -> Prop) (irispy : connection) (out : global)
  (cols : list string) :
  (forall raw_row row, row_loop irispy raw_row 0 cols [] = Ok row -> P row) ->
  forall fuel subscript result rows,
    Forall P result ->
    result_loop fuel irispy out cols subscript result = Ok rows ->
    Forall P rows.
Proof.
  intros HP. induction fuel as [|fuel IH]; intros k result rows Hres; simpl; [discriminate|].
  destruct (nextSubscript out k) as [j|].
  - destruct (row_loop irispy _ 0 cols []) as [row| |] eqn:E; simpl; try discriminate.
    apply IH. apply Forall_app. split; [exact Hres|].
    constructor; [now apply HP in E | constructor].
  - intros H. now inversion H; subst.
Qed.

(** ** The result schema *)

Lemma map_outcome_head (xs : list string) :
  map_outcome (fun x => item (Str.split ":" x) 0) xs = Ok (map (before ":") xs).
Proof.
  induction xs as [|x xs IH]; simpl; [reflexivity|].
  now rewrite item_split_0, IH.
Qed.

Lemma item_split_1 (sep : ascii) (s : string) :
  item (Str.split sep s) 1 =
  if Str.contains sep s then item (Str.split sep s) 1 else Raise IndexError.
Proof.
  destruct (Str.contains sep s) eqn:E; [reflexivity|].
  now rewrite (split_without_sep _ _ E).
Qed.

Lemma item_split_1_defined (sep : ascii) (s : string) :
  Str.contains sep s = true -> exists t, item (Str.split sep s) 1 = Ok t.
Proof.
  intros H. apply split_with_sep in H. unfold item.
  destruct (nth_error (Str.split sep s) 1) as [t|] eqn:E; [now exists t|].
  apply nth_error_None in E. lia.
Qed.

Lemma return_types_cases (xs : list string) :
  (forallb (Str.contains ":") xs = true /\
   exists tys, map_outcome (fun x => item (Str.split ":" x) 1) xs = Ok tys) \/
  (forallb (Str.contains ":") xs = false /\
   map_outcome (fun x => item (Str.split ":" x) 1) xs = Raise IndexError).
Proof.
  induction xs as [|x xs IH]; simpl.
  - left. split; [reflexivity | now exists []].
  - destruct (Str.contains ":" x) eqn:E; simpl.
    + destruct (item_split_1_defined _ _ E) as [t ->]. simpl.
      destruct IH as [[H [tys ->]]|[H ->]]; simpl.
      * left. split; [exact H | now exists (t :: tys)].
      * right. now split.
    + right. split; [reflexivity|]. rewrite item_split_1, E. reflexivity.
Qed.

(** [return_cols] in closed form: the column names when the definition
    exists and every entry has a colon. *)
Lemma return_cols_eq (irispy : connection) (api method : string) :
  return_cols irispy api method =
  match OpenId irispy "%Dictionary.ParameterDefinition" (api ++ "||" ++ method ++ "RT")%string with
  | None => Raise AttributeError
  | Some proxy =>
      if forallb (Str.contains ":") (Str.split "," (proxy "Default"%string))
      then Ok (column_names (proxy "Default"%string))
      else Raise IndexError
  end.
Proof.
  unfold return_cols, column_names.
  destruct (OpenId irispy _ _) as [proxy|]; [|reflexivity].
  rewrite map_outcome_head. simpl.
  destruct (return_types_cases (Str.split "," (proxy "Default"%string)))
    as [[-> [tys ->]]|[-> ->]]; reflexivity.
Qed.

(** ** Named arguments *)

Lemma update_outGlo (more : list (string * pyval)) :
  forall (r : pyval) (rest : Dict.t pyval),
    NoDup (map fst more) ->
    (forall k, In k (map fst more) -> ~ In k (Dict.keys rest)) ->
    exists r',
      Dict.update (("outGlo"%string, r) :: rest) more =
      ("outGlo"%string, r') :: rest
        ++ filter (fun kv => negb (String.eqb (fst kv) "outGlo")) more.
Proof.
  unfold Dict.update.
  induction more as [|[k v] more IH]; intros r rest Hnd Hdis; simpl.
  - exists r. now rewrite app_nil_r.
  - inversion Hnd as [|? ? Hk Hnd']; subst.
    destruct (String.eqb_spec k "outGlo") as [->|Hne]; simpl.
    + apply IH; [exact Hnd'|]. intros k Hin. apply Hdis. simpl. tauto.
    + rewrite set_fresh by (apply Hdis; simpl; tauto).
      destruct (IH r (rest ++ [(k, v)]) Hnd') as [r' ->].
      * intros k' Hin. unfold Dict.keys. rewrite map_app, in_app_iff. simpl.
        intros [H|[<-|[]]]; [|tauto]. apply (Hdis k'); simpl; tauto.
      * exists r'. now rewrite <- app_assoc.
Qed.

Lemma with_outGlo_items (kwargs : list (string * pyval)) :
  NoDup (map fst kwargs) ->
  exists outGlo,
    with_outGlo kwargs =
    ("outGlo"%string, outGlo)
      :: filter (fun kv => negb (String.eqb (fst kv) "outGlo")) kwargs.
Proof.
  intros Hnd. unfold with_outGlo.
  destruct (update_outGlo kwargs (PStr "^result") [] Hnd) as [r' H]; [now intros|].
  exists r'. exact H.
Qed.

Lemma outGlo_defined (kwargs : list (string * pyval)) :
  exists outGlo, Dict.get "outGlo" (with_outGlo kwargs) = Some outGlo.
Proof.
  unfold with_outGlo, Dict.update.
  assert (G : forall more (d : Dict.t pyval),
             Dict.get "outGlo" d <> None ->
             Dict.get "outGlo" (fold_left (fun acc kv => Dict.set (fst kv) (snd kv) acc) more d)
             <> None).
  { induction more as [|[k v] more IH]; intros d Hd; simpl; [exact Hd|].
    apply IH. rewrite get_set. destruct (String.eqb "outGlo" k); [discriminate | exact Hd]. }
  specialize (G kwargs [("outGlo"%string, PStr "^result")]).
  destruct (Dict.get "outGlo" (fold_left _ kwargs _)) as [o|]; [now exists o|].
  exfalso. apply G; [simpl; discriminate | reflexivity].
Qed.

Lemma kwupper_loop_filter {irispy : connection} (items : list (string * pyval)) :
  forall acc,
    kwupper_loop irispy (filter (fun kv => negb (String.eqb (fst kv) "outGlo")) items) acc =
    kwupper_loop irispy items acc.
Proof.
  induction items as [|[k v] items IH]; intros acc; simpl; [reflexivity|].
  destruct (String.eqb k "outGlo") eqn:E; simpl; [apply IH|].
  rewrite E. apply IH.
Qed.

(** The dispatcher's own [outGlo] entry does not show in [kwupper]. *)
Lemma kwupper_with_outGlo {irispy : connection} (kwargs : list (string * pyval)) :
  NoDup (map fst kwargs) -> kwupper irispy (with_outGlo kwargs) = kwupper irispy kwargs.
Proof.
  intros Hnd. destruct (with_outGlo_items kwargs Hnd) as [o ->].
  unfold kwupper. simpl. apply kwupper_loop_filter.
Qed.

Lemma kwupper_loop_other {irispy : connection} (name : string) (items : list (string * pyval)) :
  (forall k v, In (k, v) items -> k = "outGlo"%string \/ upper irispy k <> name) ->
  forall acc, Dict.get name (kwupper_loop irispy items acc) = Dict.get name acc.
Proof.
  induction items as [|[k v] items IH]; intros H acc; simpl; [reflexivity|].
  assert (H' : forall k v, In (k, v) items -> k = "outGlo"%string \/ upper irispy k <> name)
    by (intros; eapply H; right; eassumption).
  destruct (String.eqb_spec k "outGlo") as [->|Hne]; [now apply IH|].
  rewrite (IH H'), get_set.
  destruct (String.eqb_spec name (upper irispy k)) as [->|]; [|reflexivity].
  destruct (H k v); simpl; tauto.
Qed.

(** Of the named arguments that agree with [name] in upper case, the one
    supplied last is the one [kwupper] holds. *)
Lemma kwupper_loop_last {irispy : connection} (k : string) (v : pyval) (front back : list (string * pyval)) :
  k <> "outGlo"%string ->
  (forall k' v', In (k', v') back -> k' = "outGlo"%string \/ upper irispy k' <> upper irispy k) ->
  forall acc, Dict.get (upper irispy k) (kwupper_loop irispy (front ++ (k, v) :: back) acc) = Some v.
Proof.
  intros Hne Hback. induction front as [|[k0 v0] front IH]; intros acc; simpl.
  - destruct (String.eqb_spec k "outGlo"); [tauto|].
    rewrite (kwupper_loop_other _ _ Hback), get_set, String.eqb_refl. reflexivity.
  - destruct (String.eqb k0 "outGlo"); apply IH.
Qed.

(** ** Binding one parameter *)

Lemma parse_argument_eq {irispy : connection} (argument : string) :
  parse_argument irispy argument =
  match argument with
  | EmptyString => Raise IndexError
  | _ => Ok (upper irispy (declared_name argument), Str.split "=" (unmarked argument))
  end.
Proof.
  destruct argument as [|c rest]; [reflexivity|].
  unfold parse_argument, declared_name. simpl Str.head. simpl bind.
  unfold unmarked. rewrite item_split_0. simpl. now rewrite item_split_0.
Qed.

(** One round of the loop, by the precedence it follows: the named
    argument, else the positional one, else the default. *)
Lemma bind_argument_eq {irispy : connection} (gs : globals) (kw : Dict.t pyval) (args : list pyval)
  (i : nat) (argument : string) :
  bind_argument irispy gs kw args i argument =
  match argument with
  | EmptyString => Raise IndexError
  | _ =>
      match Dict.get (upper irispy (declared_name argument)) kw with
      | Some v => Ok v
      | None =>
          if Nat.ltb (i - 2) (List.length args) then item args (i - 2)
          else default_value gs argument
      end
  end.
Proof.
  unfold bind_argument. rewrite parse_argument_eq.
  destruct argument as [|c rest]; [reflexivity|].
  cbn [bind fst snd].
  destruct (Dict.get _ kw); [reflexivity|].
  destruct (Nat.ltb (i - 2) (List.length args)); [reflexivity|].
  unfold default_value, declared_default, item.
  generalize (Str.split "=" (unmarked (String c rest))). intros parts.
  destruct parts as [|p0 [|p1 parts]]; reflexivity.
Qed.

(** ** The positional vector *)

Lemma full_args_loop_from {irispy : connection} (gs : globals) (kw : Dict.t pyval) (args : list pyval)
  (raw : list string) :
  forall i acc v,
    (2 <= i)%nat ->
    full_args_loop irispy gs kw args i raw acc = Ok v ->
    exists vs,
      v = acc ++ vs /\ List.length vs = List.length raw /\
      forall j a, nth_error raw j = Some a ->
        exists x, bind_argument irispy gs kw args (i + j) a = Ok x /\ nth_error vs j = Some x.
Proof.
  induction raw as [|a0 raw IH]; intros i acc v Hi; simpl.
  - intros H. inversion H; subst. exists []. rewrite app_nil_r.
    repeat split. intros [|j] a; discriminate.
  - destruct (Nat.ltb_spec i 2) as [|_]; [lia|].
    destruct (bind_argument irispy gs kw args i a0) as [x| |] eqn:E; simpl; try discriminate.
    intros H. destruct (IH (S i) _ _ ltac:(lia) H) as [vs [-> [Hlen Hnth]]].
    exists (x :: vs). rewrite <- app_assoc. repeat split; [simpl; lia|].
    intros [|j] a Ha; simpl in *.
    + inversion Ha; subst. exists x. now rewrite Nat.add_0_r.
    + destruct (Hnth j a Ha) as [y [Hy Hy']]. exists y.
      now replace (i + S j)%nat with (S i + j)%nat by lia.
Qed.

(** The vector has one value per FormalSpec entry after the first two, the
    value for entry [i] at index [i - 2]. *)
Lemma full_args_loop_nth {irispy : connection} (gs : globals) (kw : Dict.t pyval) (args : list pyval)
  (raw : list string) (v : list pyval) :
  full_args_loop irispy gs kw args 0 raw [] = Ok v ->
  List.length v = (List.length raw - 2)%nat /\
  forall i a, (2 <= i)%nat -> nth_error raw i = Some a ->
    exists x, bind_argument irispy gs kw args i a = Ok x /\ nth_error v (i - 2) = Some x.
Proof.
  destruct raw as [|a0 [|a1 raw]]; simpl.
  - intros H; inversion H; subst. split; [reflexivity|]. intros [|i] a; discriminate.
  - intros H; inversion H; subst. split; [reflexivity|].
    intros [|[|i]] a Hi; try lia; discriminate.
  - intros H. destruct (full_args_loop_from gs kw args raw 2 [] v ltac:(lia) H)
      as [vs [-> [Hlen Hnth]]]. simpl. split; [lia|].
    intros [|[|i]] a Hi Ha; try lia. simpl in Ha.
    destruct (Hnth i a Ha) as [x [Hx Hx']]. exists x.
    replace (S (S i) - 2)%nat with i by lia. split; assumption.
Qed.

(** Two runs of the loop that bind every entry alike end alike. *)
Lemma full_args_loop_ext {irispy : connection} (gs gs' : globals) (kw kw' : Dict.t pyval)
  (args args' : list pyval) (raw : list string) :
  forall i acc,
    (forall j a, nth_error raw j = Some a -> (2 <= i + j)%nat ->
       bind_argument irispy gs kw args (i + j) a = bind_argument irispy gs' kw' args' (i + j) a) ->
    full_args_loop irispy gs kw args i raw acc = full_args_loop irispy gs' kw' args' i raw acc.
Proof.
  induction raw as [|a0 raw IH]; intros i acc H; simpl; [reflexivity|].
  assert (H' : forall j a, nth_error raw j = Some a -> (2 <= S i + j)%nat ->
     bind_argument irispy gs kw args (S i + j) a = bind_argument irispy gs' kw' args' (S i + j) a).
  { intros j a Ha Hj. replace (S i + j)%nat with (i + S j)%nat by lia.
    apply H; [exact Ha | lia]. }
  destruct (Nat.ltb_spec i 2) as [Hlt|Hge]; [now apply IH|].
  specialize (H 0%nat a0 eq_refl). rewrite Nat.add_0_r in H. rewrite <- H by lia.
  destruct (bind_argument irispy gs kw args i a0); simpl; try reflexivity.
  now apply IH.
Qed.

(** ** The dispatch as a whole *)

(** [iknow_query] phase by phase: schema, vector, remote call, rows, kill. *)
Lemma iknow_query_eq (irispy : connection) (api method : string) (domain_id : pyval)
  (args : list pyval) (kwargs : list (string * pyval)) (st : iris_state) (outGlo : pyval) :
  Dict.get "outGlo" (with_outGlo kwargs) = Some outGlo ->
  iknow_query irispy api method domain_id args kwargs st =
  match return_cols irispy api method with
  | Raise e => (Raise e, st)
  | OutOfFuel => (OutOfFuel, st)
  | Ok cols =>
      match full_args irispy (store st) api method args (with_outGlo kwargs) with
      | Raise e => (Raise e, st)
      | OutOfFuel => (OutOfFuel, st)
      | Ok v =>
          let arguments := outGlo :: domain_id :: v in
          let gs := fst (classMethodVoid irispy api method arguments (store st)) in
          let st1 := IrisState gs (calls st ++ [Call api method arguments]) in
          match snd (classMethodVoid irispy api method arguments (store st)) with
          | Some e => (Raise e, st1)
          | None =>
              match result_loop (S (List.length (gs outGlo))) irispy (gs outGlo) cols 0 [] with
              | Ok result => (Ok result, IrisState (kill outGlo gs) (calls st1))
              | Raise e => (Raise e, st1)
              | OutOfFuel => (OutOfFuel, st1)
              end
          end
      end
  end.
Proof.
  intros H. unfold iknow_query. rewrite H.
  destruct (return_cols irispy api method) as [cols| |]; cbn [bind]; try reflexivity.
  destruct (full_args irispy (store st) api method args (with_outGlo kwargs)) as [v| |];
    cbn [bind]; try reflexivity.
  cbv zeta.
  destruct (classMethodVoid irispy api method (outGlo :: domain_id :: v) (store st))
    as [gs [e|]]; cbn [fst snd]; [reflexivity|].
  destruct (result_loop (S (List.length (gs outGlo))) irispy (gs outGlo) cols 0 []);
    reflexivity.
Qed.

Lemma return_cols_fuel (irispy : connection) (api method : string) :
  return_cols irispy api method <> OutOfFuel.
Proof.
  rewrite return_cols_eq. destruct (OpenId irispy _ _) as [proxy|]; [|discriminate].
  destruct (forallb _ _); discriminate.
Qed.

Lemma bind_argument_fuel {irispy : connection} (gs : globals) (kw : Dict.t pyval) (args : list pyval)
  (i : nat) (argument : string) :
  bind_argument irispy gs kw args i argument <> OutOfFuel.
Proof.
  rewrite bind_argument_eq. destruct argument as [|c rest]; [discriminate|].
  destruct (Dict.get _ kw); [discriminate|].
  destruct (Nat.ltb _ _).
  - unfold item. destruct (nth_error args (i - 2)); discriminate.
  - unfold default_value. destruct (declared_default _) as [d|]; [|discriminate].
    destruct (String.eqb d Str.empty_literal); [discriminate|].
    destruct (String.eqb _ "$$$"); [apply iknow_macro_fuel | discriminate].
Qed.

Lemma full_args_loop_fuel {irispy : connection} (gs : globals) (kw : Dict.t pyval) (args : list pyval)
  (raw : list string) :
  forall i acc, full_args_loop irispy gs kw args i raw acc <> OutOfFuel.
Proof.
  induction raw as [|a raw IH]; intros i acc; simpl; [discriminate|].
  destruct (Nat.ltb i 2); [apply IH|].
  pose proof (@bind_argument_fuel irispy gs kw args i a).
  destruct (bind_argument irispy gs kw args i a); simpl; [apply IH | discriminate | congruence].
Qed.

Lemma full_args_fuel (irispy : connection) (gs : globals) (api method : string)
  (args : list pyval) (kwargs : Dict.t pyval) :
  full_args irispy gs api method args kwargs <> OutOfFuel.
Proof.
  unfold full_args. destruct (OpenId irispy _ _); [apply full_args_loop_fuel | discriminate].
Qed.

(** Both [while True] loops end: a dispatch returns or raises. *)
Lemma iknow_query_fuel (irispy : connection) (api method : string) (domain_id : pyval)
  (args : list pyval) (kwargs : list (string * pyval)) (st : iris_state) :
  fst (iknow_query irispy api method domain_id args kwargs st) <> OutOfFuel.
Proof.
  destruct (outGlo_defined kwargs) as [outGlo Ho].
  rewrite (iknow_query_eq _ _ _ _ _ _ _ _ Ho).
  pose proof (return_cols_fuel irispy api method).
  destruct (return_cols irispy api method) as [cols| |]; cbn [fst]; try congruence.
  pose proof (full_args_fuel irispy (store st) api method args (with_outGlo kwargs)).
  destruct (full_args _ _ _ _ _ _) as [v| |]; cbn [fst]; try congruence.
  cbv zeta.
  set (gs := fst (classMethodVoid irispy api method (outGlo :: domain_id :: v) (store st))).
  destruct (snd (classMethodVoid _ _ _ _ _)); cbn [fst]; [discriminate|].
  pose proof (result_loop_fuel irispy (gs outGlo) cols (S (List.length (gs outGlo))) 0 [])
    as Hf.
  destruct (result_loop (S (List.length (gs outGlo))) irispy (gs outGlo) cols 0 []);
    cbn [fst]; try discriminate.
  apply Hf. pose proof (count_after_le (gs outGlo) 0). lia.
Qed.

Lemma app_one_neq {A : Type} (l : list A) (x : A) : l <> l ++ [x].
Proof.
  intros H. apply (f_equal (@List.length A)) in H.
  rewrite length_app in H. simpl in H. lia.
Qed.

(** A dispatch that added a call to the log got as far as the remote
    method, and passed it the output global, the domain and [full_args]. *)
Lemma iknow_query_call_inv (irispy : connection) (api method : string) (domain_id : pyval)
  (args : list pyval) (kwargs : list (string * pyval)) (st st' : iris_state)
  (r : outcome (list (Dict.t pyval))) (c : call) :
  iknow_query irispy api method domain_id args kwargs st = (r, st') ->
  calls st' = calls st ++ [c] ->
  exists outGlo v,
    Dict.get "outGlo" (with_outGlo kwargs) = Some outGlo /\
    full_args irispy (store st) api method args (with_outGlo kwargs) = Ok v /\
    c = Call api method (outGlo :: domain_id :: v).
Proof.
  destruct (outGlo_defined kwargs) as [outGlo Ho].
  rewrite (iknow_query_eq _ _ _ _ _ _ _ _ Ho).
  assert (Hst : forall r0, (r0, st) = (r, st') -> calls st' = calls st ++ [c] -> False).
  { intros r0 H Hc. inversion H; subst. now apply app_one_neq in Hc. }
  destruct (return_cols irispy api method) as [cols| |]; try (intros H Hc; now destruct (Hst _ H Hc)).
  destruct (full_args _ _ _ _ _ _) as [v| |]; try (intros H Hc; now destruct (Hst _ H Hc)).
  cbv zeta. intros H Hc. exists outGlo, v. split; [exact Ho|]. split; [reflexivity|].
  assert (Hc' : calls st ++ [Call api method (outGlo :: domain_id :: v)] = calls st ++ [c]).
  { rewrite <- Hc.
    destruct (snd (classMethodVoid _ _ _ _ _)); [now inversion H|].
    destruct (result_loop _ _ _ _ _ _); now inversion H. }
  apply app_inv_head in Hc'. now inversion Hc'.
Qed.

(** What the remote method is passed for FormalSpec entry [i]: slot [i] of
    the call, the output global and the domain being slots 0 and 1. *)
Lemma iknow_query_call_nth (irispy : connection) (api method : string) (domain_id : pyval)
  (args : list pyval) (kwargs : list (string * pyval)) (st st' : iris_state)
  (r : outcome (list (Dict.t pyval))) (c : call) (proxy : string -> string)
  (i : nat) (argument : string) (x : pyval) :
  iknow_query irispy api method domain_id args kwargs st = (r, st') ->
  calls st' = calls st ++ [c] ->
  OpenId irispy "%Dictionary.CompiledMethod" (api ++ "||" ++ method)%string = Some proxy ->
  nth_error (Str.split "," (proxy "FormalSpec"%string)) i = Some argument ->
  (2 <= i)%nat ->
  bind_argument irispy (store st) (kwupper irispy (with_outGlo kwargs)) args i argument = Ok x ->
  nth_error (call_arguments c) i = Some x.
Proof.
  intros H Hc Hp Hi Hge Hx.
  destruct (iknow_query_call_inv _ _ _ _ _ _ _ _ _ _ H Hc) as [outGlo [v [_ [Hv ->]]]].
  unfold full_args in Hv. rewrite Hp in Hv.
  apply full_args_loop_nth in Hv. destruct Hv as [_ Hv].
  destruct (Hv i argument Hge Hi) as [y [Hy Hy']].
  assert (y = x) by congruence. subst y.
  destruct i as [|[|i]]; try lia. simpl.
  now replace (S (S i) - 2)%nat with i in Hy' by lia.
Qed.

Lemma not_names {irispy : connection} (k argument : string) :
  ~ names irispy k argument ->
  k = "outGlo"%string \/ upper irispy k <> upper irispy (declared_name argument).
Proof.
  unfold names. intros H.
  destruct (string_dec k "outGlo"); [tauto|].
  destruct (string_dec (upper irispy k) (upper irispy (declared_name argument))); tauto.
Qed.

Lemma update_keys {V : Type} (more : list (string * V)) :
  forall (d : Dict.t V) (k : string),
    In k (Dict.keys (Dict.update d more)) -> In k (Dict.keys d) \/ In k (map fst more).
Proof.
  unfold Dict.update. induction more as [|[k0 v0] more IH]; intros d k; simpl; [tauto|].
  intros H. destruct (IH _ _ H) as [H'|H']; [|tauto].
  rewrite keys_set in H'. destruct (Dict.mem k0 d); [tauto|].
  apply in_app_or in H'. simpl in H'. tauto.
Qed.

Lemma get_kwupper_unnamed {irispy : connection} (kwargs : list (string * pyval)) (argument : string) :
  unnamed irispy kwargs argument ->
  Dict.get (upper irispy (declared_name argument)) (kwupper irispy (with_outGlo kwargs)) = None.
Proof.
  intros Hun. unfold kwupper. rewrite kwupper_loop_other; [reflexivity|].
  intros k v Hin. apply (in_map fst) in Hin. simpl in Hin.
  destruct (update_keys _ _ _ Hin) as [[<-|[]]|H]; [now left|].
  apply in_map_iff in H. destruct H as [[k' v'] [<- H]].
  apply not_names. exact (Hun k' v' H).
Qed.

Lemma get_kwupper_named {irispy : connection} (front back : list (string * pyval)) (k : string) (v : pyval)
  (argument : string) :
  NoDup (map fst (front ++ (k, v) :: back)) ->
  names irispy k argument ->
  unnamed irispy back argument ->
  Dict.get (upper irispy (declared_name argument))
    (kwupper irispy (with_outGlo (front ++ (k, v) :: back))) = Some v.
Proof.
  intros Hnd [Hne Hup] Hback. rewrite (kwupper_with_outGlo _ Hnd). unfold kwupper.
  rewrite <- Hup. apply kwupper_loop_last; [exact Hne|].
  intros k' v' Hin. rewrite Hup. apply not_names. exact (Hback k' v' Hin).
Qed.

Lemma line_matches_spec (raw_line : list string) (macro : string) :
  line_matches raw_line macro = true <-> nth_error raw_line 1 = Some macro.
Proof.
  unfold line_matches. destruct raw_line as [|f0 [|f1 raw_line]]; simpl.
  - split; discriminate.
  - split; discriminate.
  - split.
    + intros H. apply String.eqb_eq in H. now subst.
    + intros H. inversion H. apply String.eqb_refl.
Qed.

(** A table in which every line that defines [macro] has a value field is
    scanned without an exception. *)
Lemma iknow_macro_loop_total (lines : global) (macro : string) :
  (forall k line, In (k, line) lines ->
     nth_error (Str.split " " line) 1 = Some macro ->
     (3 <= List.length (Str.split " " line))%nat) ->
  forall fuel subscript,
    (count_after lines subscript < fuel)%nat ->
    exists v, iknow_macro_loop fuel lines macro subscript = Ok v /\
              (v = PNone \/ exists s, v = PStr s).
Proof.
  intros Hpre. induction fuel as [|fuel IH]; intros k Hlt; [lia|]. simpl.
  pose proof (nextSubscript_spec lines k) as Hn.
  destruct (nextSubscript lines k) as [j|]; [|exists PNone; tauto].
  destruct Hn as [Hkj [Hin _]].
  destruct (getString_In _ _ Hin) as [line [-> Hline]].
  destruct (line_matches (Str.split " " line) macro) eqn:E.
  - apply line_matches_spec in E. specialize (Hpre j line Hline E).
    unfold item. destruct (nth_error (Str.split " " line) 2) as [value|] eqn:E2.
    + exists (PStr value). simpl. split; [reflexivity|]. right. now exists value.
    + apply nth_error_None in E2. lia.
  - apply IH. pose proof (count_after_step lines k j Hkj Hin). lia.
Qed.


Lemma binds_intro (irispy : connection) (api method : string) (domain_id : pyval)
  (args : list pyval) (kwargs : list (string * pyval)) (st : iris_state)
  (i : nat) (argument : string) (x : pyval) :
  parameter irispy api method i argument ->
  bind_argument irispy (store st) (kwupper irispy (with_outGlo kwargs)) args i argument = Ok x ->
  binds irispy api method domain_id args kwargs st i argument x.
Proof.
  intros [Hge [proxy [Hp Hi]]] Hx. split; [exact Hx|]. split.
  - intros v Hv. unfold full_args in Hv. rewrite Hp in Hv.
    apply full_args_loop_nth in Hv. destruct Hv as [_ Hv].
    destruct (Hv i argument Hge Hi) as [y [Hy Hy']]. congruence.
  - intros r st' c H Hc. eapply iknow_query_call_nth; eassumption.
Qed.

(** ** Claims *)

(** C1. Every row a completed dispatch returns has as its keys the column
    names of the result schema: the text before the colon of each
    comma-separated entry of the [Default] of the method's [RT] parameter
    definition, in schema order.  A name the schema lists twice is one key,
    standing where the name first occurs. *)
Theorem C1_row_keys_are_column_names (irispy : connection) (api method : string)
  (domain_id : pyval) (args : list pyval) (kwargs : list (string * pyval))
  (st st' : iris_state) (rows : list (Dict.t pyval)) :
  iknow_query irispy api method domain_id args kwargs st = (Ok rows, st') ->
  exists proxy,
    OpenId irispy "%Dictionary.ParameterDefinition" (api ++ "||" ++ method ++ "RT")%string
    = Some proxy /\
    Forall (fun row =>
              Dict.keys row = first_occurrences [] (column_names (proxy "Default"%string)) /\
              (forall c, In c (Dict.keys row) <-> In c (column_names (proxy "Default"%string))) /\
              (NoDup (column_names (proxy "Default"%string)) ->
               Dict.keys row = column_names (proxy "Default"%string)))
           rows.
Proof.
  destruct (outGlo_defined kwargs) as [outGlo Ho].
  rewrite (iknow_query_eq _ _ _ _ _ _ _ _ Ho), return_cols_eq.
  destruct (OpenId irispy _ _) as [proxy|]; [|discriminate].
  destruct (forallb _ _); [|discriminate].
  destruct (full_args _ _ _ _ _ _) as [v| |]; try discriminate. cbv zeta.
  destruct (snd (classMethodVoid _ _ _ _ _)); [discriminate|].
  destruct (result_loop _ _ _ _ _ _) as [result| |] eqn:E; try discriminate.
  intros H. inversion H; subst. exists proxy. split; [reflexivity|].
  eapply result_loop_rows; [| constructor | exact E].
  intros raw_row row Hrow. apply row_loop_keys in Hrow. simpl in Hrow.
  split; [exact Hrow|]. split.
  - intros c. rewrite Hrow, first_occurrences_In. simpl. tauto.
  - intros Hnd. rewrite Hrow. apply first_occurrences_NoDup; [exact Hnd | now intros].
Qed.

Lemma C1_row_keys_witness :
  exists proxy,
    OpenId Demo.irispy "%Dictionary.ParameterDefinition" "%iKnow.Queries.EntityAPI||GetTopRT"
    = Some proxy /\
    Forall (fun row =>
              Dict.keys row = first_occurrences [] (column_names (proxy "Default"%string)) /\
              (forall c, In c (Dict.keys row) <-> In c (column_names (proxy "Default"%string))) /\
              (NoDup (column_names (proxy "Default"%string)) ->
               Dict.keys row = column_names (proxy "Default"%string)))
           [[("entUniId", PStr "1"); ("entity", PStr "hello");
             ("frequency", PStr "2"); ("spread", PStr "2")];
            [("entUniId", PStr "7"); ("entity", PStr "text");
             ("frequency", PStr "2"); ("spread", PStr "2")]]%string.
Proof.
  apply (C1_row_keys_are_column_names Demo.irispy Demo.api "GetTop" (PInt 1) [] []
           (Demo.fresh Demo.include_file)
           (IrisState (kill (PStr "^result")
                         (fst (Demo.writes Demo.top_rows None Demo.api "GetTop"
                                 [PStr "^result"] (store (Demo.fresh Demo.include_file)))))
                      [Call Demo.api "GetTop"
                         [PStr "^result"; PInt 1; PStr "1"; PStr "10"; PStr ""; PStr "1"; PStr "3"]])).
  reflexivity.
Defined.

(** C10. Schema resolution reads the name and the declared type of every
    entry, so an entry without a colon makes the dispatch raise
    [IndexError]: the names are all there, it is the list of types, which no
    row is built from, that cannot be made.  The server state is what it
    was: the remote method has not been called. *)
Theorem C10_entry_without_colon_raises (irispy : connection) (api method : string)
  (domain_id : pyval) (args : list pyval) (kwargs : list (string * pyval))
  (st : iris_state) (proxy : string -> string) (entry : string) :
  OpenId irispy "%Dictionary.ParameterDefinition" (api ++ "||" ++ method ++ "RT")%string
  = Some proxy ->
  In entry (Str.split "," (proxy "Default"%string)) ->
  Str.contains ":" entry = false ->
  map_outcome (fun x => item (Str.split ":" x) 0) (Str.split "," (proxy "Default"%string))
  = Ok (column_names (proxy "Default"%string)) /\
  map_outcome (fun x => item (Str.split ":" x) 1) (Str.split "," (proxy "Default"%string))
  = Raise IndexError /\
  iknow_query irispy api method domain_id args kwargs st = (Raise IndexError, st).
Proof.
  intros Hp Hin Hc.
  assert (Hall : forallb (Str.contains ":") (Str.split "," (proxy "Default"%string)) = false).
  { destruct (forallb _ _) eqn:E; [|reflexivity].
    rewrite forallb_forall in E. rewrite (E entry Hin) in Hc. discriminate. }
  split; [apply map_outcome_head|]. split.
  - destruct (return_types_cases (Str.split "," (proxy "Default"%string)))
      as [[H _]|[_ H]]; [congruence | exact H].
  - destruct (outGlo_defined kwargs) as [outGlo Ho].
    now rewrite (iknow_query_eq _ _ _ _ _ _ _ _ Ho), return_cols_eq, Hp, Hall.
Qed.

Lemma C10_entry_without_colon_witness :
  map_outcome (fun x => item (Str.split ":" x) 0) ["entUniId:%Integer"; "entity"]%string
  = Ok ["entUniId"; "entity"]%string /\
  map_outcome (fun x => item (Str.split ":" x) 1) ["entUniId:%Integer"; "entity"]%string
  = Raise IndexError /\
  iknow_query Demo.irispy Demo.api "GetBare" (PInt 1) [] [] Demo.st0
  = (Raise IndexError, Demo.st0).
Proof.
  apply (C10_entry_without_colon_raises Demo.irispy Demo.api "GetBare" (PInt 1) [] []
           Demo.st0
           (fun p => if String.eqb p "Default" then "entUniId:%Integer,entity"%string
                     else EmptyString)
           "entity"%string).
  - reflexivity.
  - simpl. tauto.
  - reflexivity.
Defined.

(** C9. [iknow_macro] answers with a value or [None] whenever every line
    of the include file whose second field is the queried name has a third
    field.  The condition cannot be dropped: the guard of the scan only asks
    for more than one field before the third is read, and on a table with
    the line [#define FILTERONLY] the lookup of [$$$FILTERONLY] raises
    [IndexError]. *)
Theorem C9_iknow_macro_needs_three_fields :
  (forall (gs : globals) (macro : string),
     (forall k line, In (k, line) (gs INC) ->
        nth_error (Str.split " " line) 1 = Some (strip_macro_prefix macro) ->
        (3 <= List.length (Str.split " " line))%nat) ->
     exists v, iknow_macro gs macro = Ok v /\ (v = PNone \/ exists s, v = PStr s)) /\
  (In (1, "#define FILTERONLY"%string) (store (Demo.fresh Demo.broken_include_file) INC) /\
   Str.split " " "#define FILTERONLY" = ["#define"; "FILTERONLY"]%string /\
   strip_macro_prefix "$$$FILTERONLY" = "FILTERONLY"%string /\
   line_matches ["#define"; "FILTERONLY"]%string "FILTERONLY" = true /\
   iknow_macro (store (Demo.fresh Demo.broken_include_file)) "$$$FILTERONLY"
   = Raise IndexError).
Proof.
  split.
  - intros gs macro Hpre. unfold iknow_macro.
    apply iknow_macro_loop_total; [exact Hpre|].
    pose proof (count_after_le (gs INC) 0). lia.
  - repeat split; try reflexivity. simpl. tauto.
Qed.

Lemma C9_iknow_macro_witness :
  exists v, iknow_macro (store Demo.st0) "$$$SORTBYFREQUENCY" = Ok v /\
            (v = PNone \/ exists s, v = PStr s).
Proof.
  apply (proj1 C9_iknow_macro_needs_three_fields (store Demo.st0) "$$$SORTBYFREQUENCY"%string).
  intros k line Hin _.
  simpl in Hin. destruct Hin as [H|[H|[H|[]]]]; inversion H; subst; simpl; lia.
Defined.



(** C2, as amended.  A named argument other than the reserved [outGlo]
    whose name equals a parameter's declared name in upper case is what the
    parameter is bound to, whatever positional arguments were supplied and
    whatever default is declared, provided no named argument after it in the
    call names the same parameter: of several that do, the last one wins.
    (The FormalSpec entry is taken to be non-empty; the loop raises on an
    empty one before it looks at any argument.) *)
Theorem C2_last_matching_named_argument_wins (irispy : connection) (api method : string)
  (domain_id : pyval) (args : list pyval) (front back : list (string * pyval))
  (k : string) (v : pyval) (st : iris_state) (i : nat) (argument : string) :
  parameter irispy api method i argument ->
  argument <> EmptyString ->
  NoDup (map fst (front ++ (k, v) :: back)) ->
  names irispy k argument ->
  unnamed irispy back argument ->
  binds irispy api method domain_id args (front ++ (k, v) :: back) st i argument v.
Proof.
  intros Hpar Hne Hnd Hk Hback. apply binds_intro; [exact Hpar|].
  rewrite bind_argument_eq.
  destruct argument as [|c rest]; [congruence|].
  now rewrite (get_kwupper_named _ _ _ _ _ Hnd Hk Hback).
Qed.

Lemma C2_last_matching_witness :
  binds Demo.irispy Demo.api "GetTop" (PInt 1) [PInt 2; PInt 20]
    ([("Page"%string, PInt 3)] ++ ("PAGESIZE"%string, PInt 5) :: [("outGlo"%string, PStr "^mine")])
    Demo.st0 3 "pagesize:%Integer=10" (PInt 5).
Proof.
  apply C2_last_matching_named_argument_wins.
  - split; [lia|]. eexists. split; reflexivity.
  - discriminate.
  - repeat constructor; simpl; intuition discriminate.
  - split; [discriminate | reflexivity].
  - intros k v [H|[]] [Hne _]. inversion H; subst. now apply Hne.
Defined.

(** C2, as stated, fails.  [GetTop] called with [filter=1, FILTER=2]: the
    named argument [filter] equals the declared name of entry 4 when letter
    case is ignored, yet the entry is bound to 2, the value of [FILTER];
    with the two supplied the other way round it is bound to 1. *)
Lemma C2_counterexample :
  (names Demo.irispy "filter" ("filter:%iKnow.Filters.Filter=" ++ Str.empty_literal) /\
   names Demo.irispy "FILTER" ("filter:%iKnow.Filters.Filter=" ++ Str.empty_literal)) /\
  calls (snd (iknow_query Demo.irispy Demo.api "GetTop" (PInt 1) []
                [("filter"%string, PInt 1); ("FILTER"%string, PInt 2)] Demo.st0))
  = [Call Demo.api "GetTop"
       [PStr "^result"; PInt 1; PStr "1"; PStr "10"; PInt 2; PStr "1"; PStr "3"]] /\
  calls (snd (iknow_query Demo.irispy Demo.api "GetTop" (PInt 1) []
                [("FILTER"%string, PInt 2); ("filter"%string, PInt 1)] Demo.st0))
  = [Call Demo.api "GetTop"
       [PStr "^result"; PInt 1; PStr "1"; PStr "10"; PInt 1; PStr "1"; PStr "3"]].
Proof.
  split; [|split; reflexivity].
  split; (split; [discriminate | reflexivity]).
Qed.

(** The reserved name is not read as a parameter's name either: a method
    with a parameter [outglo] called with [outGlo='^mine'] has the
    parameter left unbound (there is no default), while the global named is
    used for the output. *)
Lemma outGlo_is_reserved :
  let kw := kwupper Demo.irispy (with_outGlo [("outGlo"%string, PStr "^mine")]) in
  upper Demo.irispy "outGlo" = upper Demo.irispy (declared_name "outglo:%String") /\
  bind_argument Demo.irispy (store Demo.st0) kw [] 2 "outglo:%String" = Ok PNone /\
  Dict.get "outGlo" (with_outGlo [("outGlo"%string, PStr "^mine")]) = Some (PStr "^mine").
Proof. repeat split. Qed.





(** Positional arguments past the last FormalSpec entry are never looked
    at. *)
Lemma bind_argument_firstn {irispy : connection} (gs : globals) (kw : Dict.t pyval) (args : list pyval)
  (n i : nat) (argument : string) :
  (i - 2 < n)%nat ->
  bind_argument irispy gs kw args i argument = bind_argument irispy gs kw (firstn n args) i argument.
Proof.
  intros Hi. rewrite !bind_argument_eq.
  destruct argument as [|c rest]; [reflexivity|].
  destruct (Dict.get _ kw); [reflexivity|].
  rewrite length_firstn. unfold item. rewrite nth_error_firstn.
  destruct (Nat.ltb_spec (i - 2) n) as [_|]; [|lia].
  destruct (Nat.ltb_spec (i - 2) (List.length args));
    destruct (Nat.ltb_spec (i - 2) (Nat.min n (List.length args))); try lia; reflexivity.
Qed.

Lemma full_args_firstn (irispy : connection) (gs : globals) (api method : string)
  (args : list pyval) (kwargs : Dict.t pyval) (proxy : string -> string) :
  OpenId irispy "%Dictionary.CompiledMethod" (api ++ "||" ++ method)%string = Some proxy ->
  full_args irispy gs api method args kwargs =
  full_args irispy gs api method
    (firstn (List.length (Str.split "," (proxy "FormalSpec"%string)) - 2) args) kwargs.
Proof.
  intros Hp. unfold full_args. rewrite Hp.
  apply full_args_loop_ext. intros j a Ha Hj. simpl.
  apply bind_argument_firstn.
  assert (j < List.length (Str.split "," (proxy "FormalSpec"%string)))%nat
    by (apply nth_error_Some; congruence).
  lia.
Qed.

(** C3, as amended.  Positional arguments beyond the declared parameters
    are ignored: with more of them than the FormalSpec has entries after its
    first two, the dispatch does what it does with the surplus cut off, and
    when the schema is resolved and the vector built, the vector has one
    value per declared parameter and the remote method is called with it. *)
Theorem C3_surplus_positional_arguments_are_ignored (irispy : connection)
  (api method : string) (domain_id : pyval) (args : list pyval)
  (kwargs : list (string * pyval)) (st : iris_state) (proxy : string -> string) :
  OpenId irispy "%Dictionary.CompiledMethod" (api ++ "||" ++ method)%string = Some proxy ->
  (List.length (Str.split "," (proxy "FormalSpec"%string)) - 2 < List.length args)%nat ->
  iknow_query irispy api method domain_id args kwargs st
  = iknow_query irispy api method domain_id
      (firstn (List.length (Str.split "," (proxy "FormalSpec"%string)) - 2) args) kwargs st /\
  (forall cols v,
      return_cols irispy api method = Ok cols ->
      full_args irispy (store st) api method args (with_outGlo kwargs) = Ok v ->
      List.length v = (List.length (Str.split "," (proxy "FormalSpec"%string)) - 2)%nat /\
      exists outGlo,
        calls (snd (iknow_query irispy api method domain_id args kwargs st))
        = calls st ++ [Call api method (outGlo :: domain_id :: v)]).
Proof.
  intros Hp Hmore. destruct (outGlo_defined kwargs) as [outGlo Ho]. split.
  - rewrite !(iknow_query_eq _ _ _ _ _ _ _ _ Ho).
    now rewrite <- (full_args_firstn _ _ _ _ _ _ _ Hp).
  - intros cols v Hc Hv. split.
    + unfold full_args in Hv. rewrite Hp in Hv.
      now apply full_args_loop_nth in Hv.
    + exists outGlo. rewrite (iknow_query_eq _ _ _ _ _ _ _ _ Ho), Hc, Hv. cbv zeta.
      destruct (snd (classMethodVoid _ _ _ _ _)); [reflexivity|].
      destruct (result_loop _ _ _ _ _ _); reflexivity.
Qed.

Lemma C3_surplus_witness :
  iknow_query Demo.paged Demo.api "GetPage" (PInt 1) [PInt 7; PInt 8; PInt 9] [] Demo.st0
  = iknow_query Demo.paged Demo.api "GetPage" (PInt 1) [PInt 7; PInt 8] [] Demo.st0 /\
  (forall cols v,
      return_cols Demo.paged Demo.api "GetPage" = Ok cols ->
      full_args Demo.paged (store Demo.st0) Demo.api "GetPage" [PInt 7; PInt 8; PInt 9]
        (with_outGlo []) = Ok v ->
      List.length v = 2%nat /\
      exists outGlo,
        calls (snd (iknow_query Demo.paged Demo.api "GetPage" (PInt 1)
                      [PInt 7; PInt 8; PInt 9] [] Demo.st0))
        = calls Demo.st0 ++ [Call Demo.api "GetPage" (outGlo :: PInt 1 :: v)]).
Proof.
  apply (C3_surplus_positional_arguments_are_ignored Demo.paged Demo.api "GetPage" (PInt 1)
           [PInt 7; PInt 8; PInt 9] [] Demo.st0
           (fun p => if String.eqb p "FormalSpec"
                     then "&result,domainid:%Integer,page:%Integer=1,pagesize:%Integer=10"%string
                     else EmptyString)).
  - reflexivity.
  - simpl. lia.
Defined.

(** C3, as stated, fails.  [GetPage] declares two parameters after the
    output global and the domain; called with three positional arguments the
    dispatch raises nothing, calls the method with the first two and returns
    its rows. *)
Lemma C3_counterexample :
  fst (iknow_query Demo.paged Demo.api "GetPage" (PInt 1) [PInt 7; PInt 8; PInt 9] [] Demo.st0)
  = Ok [[("entity", PStr "fish"); ("frequency", PStr "3")];
        [("entity", PStr "cat"); ("frequency", PStr "1")]]%string /\
  calls (snd (iknow_query Demo.paged Demo.api "GetPage" (PInt 1)
                [PInt 7; PInt 8; PInt 9] [] Demo.st0))
  = [Call Demo.api "GetPage" [PStr "^result"; PInt 1; PInt 7; PInt 8]].
Proof. split; reflexivity. Qed.

Lemma pyval_eqb_refl (a : pyval) : pyval_eqb a a = true.
Proof.
  destruct a; simpl; [reflexivity | apply String.eqb_refl | apply Z.eqb_refl].
Qed.

(** C5, as amended.  The output global is killed when the dispatch returns
    its rows, and only then: there is no handler around the remote call or
    the loop over the global.  A dispatch that raises leaves the server
    either as it found it (nothing was called yet) or with the globals
    exactly as the remote method left them, the output global included. *)
Theorem C5_output_global_killed_on_return_only (irispy : connection) (api method : string)
  (domain_id : pyval) (args : list pyval) (kwargs : list (string * pyval))
  (st st' : iris_state) (r : outcome (list (Dict.t pyval))) :
  iknow_query irispy api method domain_id args kwargs st = (r, st') ->
  exists outGlo,
    Dict.get "outGlo" (with_outGlo kwargs) = Some outGlo /\
    match r with
    | Ok _ =>
        store st' outGlo = [] /\
        exists v,
          full_args irispy (store st) api method args (with_outGlo kwargs) = Ok v /\
          store st' =
          kill outGlo (fst (classMethodVoid irispy api method (outGlo :: domain_id :: v) (store st)))
    | Raise _ =>
        st' = st \/
        exists v,
          full_args irispy (store st) api method args (with_outGlo kwargs) = Ok v /\
          store st' =
          fst (classMethodVoid irispy api method (outGlo :: domain_id :: v) (store st))
    | OutOfFuel => False
    end.
Proof.
  intros H. destruct (outGlo_defined kwargs) as [outGlo Ho].
  exists outGlo. split; [exact Ho|].
  pose proof (iknow_query_fuel irispy api method domain_id args kwargs st) as Hfuel.
  rewrite H in Hfuel. simpl in Hfuel.
  rewrite (iknow_query_eq _ _ _ _ _ _ _ _ Ho) in H.
  destruct (return_cols irispy api method) as [cols| |].
  2,3: inversion H; subst; tauto.
  destruct (full_args _ _ _ _ _ _) as [v| |].
  2,3: inversion H; subst; tauto.
  cbv zeta in H.
  destruct (snd (classMethodVoid _ _ _ _ _)).
  - inversion H; subst. right. exists v. split; reflexivity.
  - destruct (result_loop _ _ _ _ _ _); inversion H; subst; try tauto.
    + split; [simpl; unfold kill; now rewrite pyval_eqb_refl|].
      exists v. split; reflexivity.
    + right. exists v. split; reflexivity.
Qed.

Lemma C5_output_global_witness :
  exists outGlo,
    Dict.get "outGlo" (with_outGlo []) = Some outGlo /\
    (store (snd (iknow_query Demo.irispy Demo.api "GetTop" (PInt 1) [] [] Demo.st0)) outGlo = [] /\
     exists v,
       full_args Demo.irispy (store Demo.st0) Demo.api "GetTop" [] (with_outGlo []) = Ok v /\
       store (snd (iknow_query Demo.irispy Demo.api "GetTop" (PInt 1) [] [] Demo.st0)) =
       kill outGlo
         (fst (classMethodVoid Demo.irispy Demo.api "GetTop" (outGlo :: PInt 1 :: v)
                 (store Demo.st0)))).
Proof.
  apply (C5_output_global_killed_on_return_only Demo.irispy Demo.api "GetTop" (PInt 1) [] []
           Demo.st0
           (snd (iknow_query Demo.irispy Demo.api "GetTop" (PInt 1) [] [] Demo.st0))
           (Ok [[("entUniId", PStr "1"); ("entity", PStr "hello");
                 ("frequency", PStr "2"); ("spread", PStr "2")];
                [("entUniId", PStr "7"); ("entity", PStr "text");
                 ("frequency", PStr "2"); ("spread", PStr "2")]]%string)).
  reflexivity.
Defined.

(** C5, as stated, fails.  On a server whose query method raises after it
    has written two rows the dispatch raises the method's error and the rows
    are still in [^result]; the same when it is [IRISList.get] that raises
    while the rows are read. *)
Lemma C5_counterexample :
  (fst (iknow_query Demo.failing Demo.api "GetTop" (PInt 1) [] [] Demo.st0)
   = Raise (RemoteError "<STORE>") /\
   store (snd (iknow_query Demo.failing Demo.api "GetTop" (PInt 1) [] [] Demo.st0))
     (PStr "^result")
   = [(1, "1|hello|2|2"); (2, "7|text|2|2")]%string) /\
  (fst (iknow_query Demo.strict Demo.api "GetPage" (PInt 1) [] [] Demo.st0)
   = Raise IndexError /\
   store (snd (iknow_query Demo.strict Demo.api "GetPage" (PInt 1) [] [] Demo.st0))
     (PStr "^result")
   = [(1, "fish"%string)]).
Proof. repeat split. Qed.

(** A row is read to the last column when [IRISList.get] answers past the
    end of the payload. *)
Lemma row_loop_lenient (irispy : connection) (raw_row : list pyval) (none : pyval)
  (cols : list string) :
  IRISList_past_end irispy = inl none ->
  NoDup cols ->
  forall i row,
    exists row',
      row_loop irispy raw_row i cols row = Ok row' /\
      (forall j col, nth_error cols j = Some col ->
         Dict.get col row' = Some (nth (i + j) raw_row none)) /\
      (forall col, ~ In col cols -> Dict.get col row' = Dict.get col row).
Proof.
  intros Hpe. induction cols as [|c cols IH]; intros Hnd i row; simpl.
  - exists row. split; [reflexivity|]. split; [|reflexivity].
    intros [|j] col; discriminate.
  - inversion Hnd as [|? ? Hc Hnd']; subst.
    assert (Hget : IRISList_get irispy raw_row (i + 1) = Ok (nth i raw_row none)).
    { rewrite Nat.add_1_r. unfold IRISList_get.
      destruct (nth_error raw_row i) as [x|] eqn:E.
      - now rewrite (nth_error_nth _ _ none E).
      - rewrite Hpe. simpl. apply nth_error_None in E. now rewrite nth_overflow. }
    rewrite Hget. simpl.
    destruct (IH Hnd' (S i) (Dict.set c (nth i raw_row none) row)) as [row' [Hr [Hin Hout]]].
    exists row'. split; [exact Hr|]. split.
    + intros [|j] col Hj; simpl in Hj.
      * inversion Hj; subst. rewrite (Hout col Hc), get_set, String.eqb_refl.
        now rewrite Nat.add_0_r.
      * rewrite (Hin j col Hj). now replace (i + S j)%nat with (S i + j)%nat by lia.
    + intros col Hn. rewrite Hout by tauto. rewrite get_set.
      destruct (String.eqb_spec col c); [subst; tauto | reflexivity].
Qed.

(** It is abandoned at the first column past the payload when
    [IRISList.get] raises there. *)
Lemma row_loop_strict (irispy : connection) (raw_row : list pyval) (e : exn)
  (cols : list string) :
  IRISList_past_end irispy = inr e ->
  forall i row,
    (i <= List.length raw_row < i + List.length cols)%nat ->
    row_loop irispy raw_row i cols row = Raise e.
Proof.
  intros Hpe. induction cols as [|c cols IH]; intros i row Hi; simpl in *; [lia|].
  rewrite Nat.add_1_r. unfold IRISList_get.
  destruct (nth_error raw_row i) as [x|] eqn:E; simpl.
  - apply IH. assert (i < List.length raw_row)%nat by (apply nth_error_Some; congruence). lia.
  - now rewrite Hpe.
Qed.

(** C6, as amended.  A row is never cut to the length of its payload.
    The loop runs over all the columns: when the payload has fewer fields
    than the schema has columns, the row still has every column name as a
    key, the columns past the payload holding whatever [IRISList.get]
    answers there, or else the row is not built at all, because
    [IRISList.get] raised. *)
Theorem C6_short_payload_row_has_every_column (irispy : connection)
  (raw_row : list pyval) (cols : list string) :
  (List.length raw_row < List.length cols)%nat ->
  match IRISList_past_end irispy with
  | inl none =>
      exists row,
        row_loop irispy raw_row 0 cols [] = Ok row /\
        Dict.keys row = first_occurrences [] cols /\
        (NoDup cols ->
         List.length row = List.length cols /\
         forall i col, nth_error cols i = Some col ->
           Dict.get col row = Some (nth i raw_row none))
  | inr e => row_loop irispy raw_row 0 cols [] = Raise e
  end.
Proof.
  intros Hshort. destruct (IRISList_past_end irispy) as [none|e] eqn:Hpe.
  - assert (Hok : exists row, row_loop irispy raw_row 0 cols [] = Ok row).
    { clear Hshort. generalize (@nil (string * pyval)) at 1. generalize 0%nat.
      induction cols as [|c cols IH]; intros i row; simpl; [now exists row|].
      rewrite Nat.add_1_r. unfold IRISList_get.
      destruct (nth_error raw_row i); [|rewrite Hpe]; simpl; apply IH. }
    destruct Hok as [row Hrow]. exists row. split; [exact Hrow|].
    pose proof (row_loop_keys _ _ _ _ _ _ Hrow) as Hkeys. simpl in Hkeys.
    split; [exact Hkeys|]. intros Hnd.
    destruct (row_loop_lenient irispy raw_row none cols Hpe Hnd 0%nat [])
      as [row' [Hr [Hin _]]].
    assert (row' = row) by congruence. subst row'. split.
    + rewrite <- (length_map fst row). fold (Dict.keys row). rewrite Hkeys.
      now rewrite first_occurrences_NoDup.
    + exact Hin.
  - apply row_loop_strict with (e := e); [exact Hpe | lia].
Qed.

Lemma C6_short_payload_witness :
  exists row,
    row_loop Demo.lenient [PStr "fish"] 0 ["entity"; "frequency"]%string [] = Ok row /\
    Dict.keys row = first_occurrences [] ["entity"; "frequency"]%string /\
    (NoDup ["entity"; "frequency"]%string ->
     List.length row = 2%nat /\
     forall i col, nth_error ["entity"; "frequency"]%string i = Some col ->
       Dict.get col row = Some (nth i [PStr "fish"] PNone)).
Proof.
  apply (C6_short_payload_row_has_every_column Demo.lenient [PStr "fish"]
           ["entity"; "frequency"]%string).
  simpl. lia.
Defined.

(** C6, as stated, fails.  [GetPage] has two columns and the server answers
    with the one-field row [fish].  Where [IRISList.get] answers [None] past
    the end, the row returned has two pairs, not [min 1 2]; where it raises,
    the dispatch raises. *)
Lemma C6_counterexample :
  List.length (IRISList Demo.lenient (Some "fish"%string)) = 1%nat /\
  return_cols Demo.lenient Demo.api "GetPage" = Ok ["entity"; "frequency"]%string /\
  Nat.min 1 2 = 1%nat /\
  fst (iknow_query Demo.lenient Demo.api "GetPage" (PInt 1) [] [] Demo.st0)
  = Ok [[("entity"%string, PStr "fish"); ("frequency"%string, PNone)]] /\
  fst (iknow_query Demo.strict Demo.api "GetPage" (PInt 1) [] [] Demo.st0)
  = Raise IndexError.
Proof. repeat split. Qed.

(** ** Naming a parameter or leaving it out *)

Lemma get_app {V : Type} (k : string) (d d' : Dict.t V) :
  Dict.get k (d ++ d') =
  match Dict.get k d with
  | Some v => Some v
  | None => Dict.get k d'
  end.
Proof.
  induction d as [|[k0 v0] d IH]; simpl; [reflexivity|].
  destruct (String.eqb k k0); [reflexivity | exact IH].
Qed.

(** In [{ **d, **more }] a key has the value that [more] gives it last,
    else the one it has in [d]. *)
Lemma get_update {V : Type} (k : string) (more : list (string * V)) :
  forall d : Dict.t V,
    Dict.get k (Dict.update d more) =
    match Dict.get k (rev more) with
    | Some v => Some v
    | None => Dict.get k d
    end.
Proof.
  unfold Dict.update. induction more as [|[k0 v0] more IH]; intros d; simpl; [reflexivity|].
  rewrite IH, get_app, get_set. simpl.
  destruct (Dict.get k (rev more)); [reflexivity|].
  destruct (String.eqb k k0); reflexivity.
Qed.

Lemma outGlo_unaffected (front back : list (string * pyval)) (k : string) (v : pyval) :
  k <> "outGlo"%string ->
  Dict.get "outGlo" (with_outGlo (front ++ (k, v) :: back)) =
  Dict.get "outGlo" (with_outGlo (front ++ back)).
Proof.
  intros Hne. unfold with_outGlo. rewrite !get_update, !rev_app_distr. cbn [rev].
  rewrite <- app_assoc, !get_app.
  change (Dict.get "outGlo" [(k, v)])
    with (if String.eqb "outGlo" k then Some v else @None pyval).
  destruct (String.eqb_spec "outGlo" k) as [E|_]; [congruence | reflexivity].
Qed.

Lemma kwupper_loop_app {irispy : connection} (items items' : list (string * pyval)) :
  forall acc,
    kwupper_loop irispy (items ++ items') acc = kwupper_loop irispy items' (kwupper_loop irispy items acc).
Proof.
  induction items as [|[k v] items IH]; intros acc; simpl; [reflexivity|].
  destruct (String.eqb k "outGlo"); apply IH.
Qed.

Lemma kwupper_loop_get_congr {irispy : connection} (name : string) (items : list (string * pyval)) :
  forall acc acc',
    Dict.get name acc = Dict.get name acc' ->
    Dict.get name (kwupper_loop irispy items acc) = Dict.get name (kwupper_loop irispy items acc').
Proof.
  induction items as [|[k v] items IH]; intros acc acc' H; simpl; [exact H|].
  destruct (String.eqb k "outGlo"); apply IH; [exact H|].
  rewrite !get_set. now rewrite H.
Qed.

(** A named argument only shows in the lookups of its own upper-cased
    name. *)
Lemma get_kwupper_other {irispy : connection} (front back : list (string * pyval)) (k : string) (v : pyval)
  (name : string) :
  NoDup (map fst (front ++ (k, v) :: back)) ->
  name <> upper irispy k ->
  Dict.get name (kwupper irispy (with_outGlo (front ++ (k, v) :: back))) =
  Dict.get name (kwupper irispy (with_outGlo (front ++ back))).
Proof.
  intros Hnd Hne.
  assert (Hnd' : NoDup (map fst (front ++ back))).
  { rewrite map_app in *. simpl in Hnd. now apply NoDup_remove_1 in Hnd. }
  rewrite (kwupper_with_outGlo _ Hnd), (kwupper_with_outGlo _ Hnd').
  unfold kwupper. rewrite !kwupper_loop_app. simpl.
  destruct (String.eqb k "outGlo"); [reflexivity|].
  apply kwupper_loop_get_congr. rewrite get_set.
  destruct (String.eqb_spec name (upper irispy k)); [congruence | reflexivity].
Qed.

(** C8, as amended.  Take a parameter that the call supplies neither by
    name nor by position and whose upper-cased name no other parameter of
    the method shares.  Naming it, with the value that its default binds to
    (the literal itself for a plain literal, the empty string for the
    literal of two double quotes, the include file's value for a [$$$]
    token), gives the same positional vector, and the same dispatch, as
    leaving it out. *)
Theorem C8_naming_the_default_value_changes_nothing (irispy : connection)
  (api method : string) (domain_id : pyval) (args : list pyval)
  (front back : list (string * pyval)) (k : string) (d : pyval)
  (st : iris_state) (i : nat) (argument : string) :
  parameter irispy api method i argument ->
  argument <> EmptyString ->
  (forall j other, parameter irispy api method j other -> j <> i ->
     upper irispy (declared_name other) <> upper irispy (declared_name argument)) ->
  NoDup (map fst (front ++ (k, d) :: back)) ->
  names irispy k argument ->
  unnamed irispy (front ++ back) argument ->
  (List.length args <= i - 2)%nat ->
  default_value (store st) argument = Ok d ->
  full_args irispy (store st) api method args (with_outGlo (front ++ (k, d) :: back))
  = full_args irispy (store st) api method args (with_outGlo (front ++ back)) /\
  iknow_query irispy api method domain_id args (front ++ (k, d) :: back) st
  = iknow_query irispy api method domain_id args (front ++ back) st.
Proof.
  intros Hpar Hne Huniq Hnd Hk Hun Hargs Hdef.
  assert (Hfull :
    full_args irispy (store st) api method args (with_outGlo (front ++ (k, d) :: back))
    = full_args irispy (store st) api method args (with_outGlo (front ++ back))).
  { unfold full_args. destruct Hpar as [Hge [proxy [Hp Hi]]]. rewrite Hp.
    apply full_args_loop_ext. intros j a Ha Hj. simpl in *.
    destruct (Nat.eq_dec j i) as [->|Hji].
    - assert (a = argument) by congruence. subst a.
      rewrite !bind_argument_eq. destruct argument as [|c rest]; [congruence|].
      rewrite (get_kwupper_named _ _ _ _ _ Hnd Hk).
      + rewrite (get_kwupper_unnamed _ _ Hun).
        destruct (Nat.ltb_spec (i - 2) (List.length args)) as [|_]; [lia|].
        now rewrite Hdef.
      + intros k' v' Hin. apply (Hun k' v'). apply in_or_app. now right.
    - rewrite !bind_argument_eq. destruct a as [|c rest]; [reflexivity|].
      rewrite get_kwupper_other; [reflexivity | exact Hnd |].
      destruct Hk as [_ ->]. apply (Huniq j); [|exact Hji].
      split; [exact Hj|]. exists proxy. now split. }
  split; [exact Hfull|].
  destruct (outGlo_defined (front ++ back)) as [outGlo Ho].
  assert (Ho' : Dict.get "outGlo" (with_outGlo (front ++ (k, d) :: back)) = Some outGlo).
  { rewrite outGlo_unaffected; [exact Ho | apply Hk]. }
  now rewrite (iknow_query_eq _ _ _ _ _ _ _ _ Ho), (iknow_query_eq _ _ _ _ _ _ _ _ Ho'), Hfull.
Qed.

Lemma C8_naming_the_default_witness :
  full_args Demo.irispy (store Demo.st0) Demo.api "GetTop" [PInt 2]
    (with_outGlo ([("SortType"%string, PInt 4)] ++ ("PageSize"%string, PStr "10") :: []))
  = full_args Demo.irispy (store Demo.st0) Demo.api "GetTop" [PInt 2]
      (with_outGlo ([("SortType"%string, PInt 4)] ++ [])) /\
  iknow_query Demo.irispy Demo.api "GetTop" (PInt 1) [PInt 2]
    ([("SortType"%string, PInt 4)] ++ ("PageSize"%string, PStr "10") :: []) Demo.st0
  = iknow_query Demo.irispy Demo.api "GetTop" (PInt 1) [PInt 2]
      ([("SortType"%string, PInt 4)] ++ []) Demo.st0.
Proof.
  apply (C8_naming_the_default_value_changes_nothing Demo.irispy Demo.api "GetTop" (PInt 1)
           [PInt 2] [("SortType"%string, PInt 4)] [] "PageSize" (PStr "10") Demo.st0
           3 "pagesize:%Integer=10").
  - split; [lia|]. eexists. split; reflexivity.
  - discriminate.
  - intros j other [Hge [proxy [Hp Hj]]] Hne.
    vm_compute in Hp. inversion Hp; subst proxy. clear Hp.
    do 7 (destruct j as [|j]; [try lia; vm_compute in Hj; inversion Hj; discriminate|]).
    vm_compute in Hj. destruct j; discriminate.
  - repeat constructor; simpl; intuition discriminate.
  - split; [discriminate | reflexivity].
  - intros k v [H|[]] [_ Hup]. inversion H; subst. discriminate.
  - simpl. lia.
  - reflexivity.
Defined.

(** C8, as stated, fails.  The default literal of [filter] is the text of
    two double quotes and that of [filtermode] is [$$$FILTERONLY].  Naming
    either parameter with a value equal to its default literal passes that
    text to the method; leaving it out passes the empty string, and the
    include file's [1]. *)
Lemma C8_counterexample :
  (declared_default ("filter:%iKnow.Filters.Filter=" ++ Str.empty_literal)
   = Some Str.empty_literal /\
   full_args Demo.irispy (store Demo.st0) Demo.api "GetTop" []
     (with_outGlo [("filter"%string, PStr Str.empty_literal)])
   = Ok [PStr "1"; PStr "10"; PStr Str.empty_literal; PStr "1"; PStr "3"] /\
   full_args Demo.irispy (store Demo.st0) Demo.api "GetTop" [] (with_outGlo [])
   = Ok [PStr "1"; PStr "10"; PStr ""; PStr "1"; PStr "3"]) /\
  (declared_default "filtermode:%Integer=$$$FILTERONLY" = Some "$$$FILTERONLY"%string /\
   full_args Demo.irispy (store Demo.st0) Demo.api "GetTop" []
     (with_outGlo [("filtermode"%string, PStr "$$$FILTERONLY")])
   = Ok [PStr "1"; PStr "10"; PStr ""; PStr "$$$FILTERONLY"; PStr "3"] /\
   full_args Demo.irispy (store Demo.st0) Demo.api "GetTop" [] (with_outGlo [])
   = Ok [PStr "1"; PStr "10"; PStr ""; PStr "1"; PStr "3"]).
Proof. repeat split. Qed.

(** Why the name must not be shared: in [GetTwin] the parameters [x] and
    [X] have the defaults 1 and 2; naming [x] with its default binds both
    to it. *)
Lemma shared_name_binds_both :
  full_args Demo.irispy (store Demo.st0) Demo.api "GetTwin" []
    (with_outGlo [("x"%string, PStr "1")])
  = Ok [PStr "1"; PStr "1"] /\
  full_args Demo.irispy (store Demo.st0) Demo.api "GetTwin" [] (with_outGlo [])
  = Ok [PStr "1"; PStr "2"].
Proof. split; reflexivity. Qed.

(** ** Termination *)

(** A dispatch comes to an end: it returns its rows or it raises.  The scan
    of the include file and the walk over the output global both move to a
    strictly larger subscript of a finite global in every round. *)
Theorem iknow_query_returns_or_raises (irispy : connection) (api method : string)
  (domain_id : pyval) (args : list pyval) (kwargs : list (string * pyval))
  (st : iris_state) :
  (exists rows, fst (iknow_query irispy api method domain_id args kwargs st) = Ok rows) \/
  (exists e, fst (iknow_query irispy api method domain_id args kwargs st) = Raise e).
Proof.
  pose proof (iknow_query_fuel irispy api method domain_id args kwargs st) as H.
  destruct (fst (iknow_query irispy api method domain_id args kwargs st)) as [rows|e|].
  - left. now exists rows.
  - right. now exists e.
  - congruence.
Qed.

(** ** More of what a dispatch does *)

(** *** The order of the rows *)

Lemma result_loop_walk (irispy : connection) (out : global) (cols : list string) :
  forall fuel subscript result rows,
    result_loop fuel irispy out cols subscript result = Ok rows ->
    exists ks rows',
      rows = result ++ rows' /\
      walk out subscript ks /\
      Forall2 (fun j row =>
                 row_loop irispy (IRISList irispy (getBytes out j)) 0 cols [] = Ok row)
              ks rows'.
Proof.
  induction fuel as [|fuel IH]; intros k result rows; simpl; [discriminate|].
  pose proof (nextSubscript_spec out k) as Hn.
  destruct (nextSubscript out k) as [j|].
  - destruct Hn as [Hkj [Hin Hmin]].
    destruct (row_loop irispy _ 0 cols []) as [row| |] eqn:E; simpl; try discriminate.
    intros H. destruct (IH _ _ _ H) as [ks [rows' [-> [[Hs Hm] Hf]]]].
    exists (j :: ks), (row :: rows'). rewrite <- app_assoc. split; [reflexivity|].
    split; [split|].
    + constructor; [exact Hs|]. apply Forall_forall. intros x Hx. now apply Hm in Hx.
    + intros x. simpl. rewrite Hm. split.
      * intros [<-|[H1 H2]]; split; auto; lia.
      * intros [H1 H2]. specialize (Hmin x H1 H2).
        destruct (Z.eq_dec j x); [now left | right; split; [exact H1 | lia]].
    + constructor; assumption.
  - intros H. inversion H; subst. exists [], []. rewrite app_nil_r.
    split; [reflexivity|]. split; [split|]; [constructor | | constructor].
    intros x. simpl. split; [tauto|]. intros [H1 H2]. specialize (Hn x H1). lia.
Qed.

(** X2. The rows come in ascending order of the subscripts of the output
    global, one row for each subscript above 0 that the remote method left
    there; what is stored at 0 or below is not read. *)
Theorem rows_follow_the_positive_subscripts (irispy : connection) (api method : string)
  (domain_id : pyval) (args : list pyval) (kwargs : list (string * pyval))
  (st st' : iris_state) (rows : list (Dict.t pyval)) :
  iknow_query irispy api method domain_id args kwargs st = (Ok rows, st') ->
  exists outGlo cols v ks,
    Dict.get "outGlo" (with_outGlo kwargs) = Some outGlo /\
    return_cols irispy api method = Ok cols /\
    full_args irispy (store st) api method args (with_outGlo kwargs) = Ok v /\
    let out := fst (classMethodVoid irispy api method (outGlo :: domain_id :: v) (store st))
                 outGlo in
    walk out 0 ks /\
    Forall2 (fun j row =>
               row_loop irispy (IRISList irispy (getBytes out j)) 0 cols [] = Ok row)
            ks rows.
Proof.
  destruct (outGlo_defined kwargs) as [outGlo Ho].
  rewrite (iknow_query_eq _ _ _ _ _ _ _ _ Ho).
  destruct (return_cols irispy api method) as [cols| |]; try discriminate.
  destruct (full_args _ _ _ _ _ _) as [v| |]; try discriminate. cbv zeta.
  destruct (snd (classMethodVoid _ _ _ _ _)); [discriminate|].
  destruct (result_loop _ _ _ _ _ _) as [result| |] eqn:E; try discriminate.
  intros H. inversion H; subst. exists outGlo, cols, v.
  destruct (result_loop_walk _ _ _ _ _ _ _ E) as [ks [rows' [-> [Hw Hf]]]].
  exists ks. split; [exact Ho|]. split; [reflexivity|]. split; [reflexivity|].
  cbv zeta. split; [exact Hw | exact Hf].
Qed.

Lemma rows_follow_witness :
  exists outGlo cols v ks,
    Dict.get "outGlo" (with_outGlo []) = Some outGlo /\
    return_cols (Demo.server Demo.classes
                   [(2, "cat|1"); (0, "none|0"); (1, "fish|3"); (-4, "below|9")]%string
                   None (inl PNone)) Demo.api "GetPage" = Ok cols /\
    full_args (Demo.server Demo.classes
                 [(2, "cat|1"); (0, "none|0"); (1, "fish|3"); (-4, "below|9")]%string
                 None (inl PNone)) (store Demo.st0) Demo.api "GetPage" [] (with_outGlo [])
    = Ok v /\
    let out :=
      fst (classMethodVoid
             (Demo.server Demo.classes
                [(2, "cat|1"); (0, "none|0"); (1, "fish|3"); (-4, "below|9")]%string
                None (inl PNone))
             Demo.api "GetPage" (outGlo :: PInt 1 :: v) (store Demo.st0)) outGlo in
    walk out 0 ks /\
    Forall2 (fun j row =>
               row_loop (Demo.server Demo.classes
                           [(2, "cat|1"); (0, "none|0"); (1, "fish|3"); (-4, "below|9")]%string
                           None (inl PNone))
                 (IRISList (Demo.server Demo.classes
                              [(2, "cat|1"); (0, "none|0"); (1, "fish|3"); (-4, "below|9")]%string
                              None (inl PNone)) (getBytes out j)) 0 cols [] = Ok row)
            ks
            [[("entity", PStr "fish"); ("frequency", PStr "3")];
             [("entity", PStr "cat"); ("frequency", PStr "1")]]%string.
Proof.
  apply (rows_follow_the_positive_subscripts
           (Demo.server Demo.classes
              [(2, "cat|1"); (0, "none|0"); (1, "fish|3"); (-4, "below|9")]%string
              None (inl PNone))
           Demo.api "GetPage" (PInt 1) [] [] Demo.st0
           (snd (iknow_query
                   (Demo.server Demo.classes
                      [(2, "cat|1"); (0, "none|0"); (1, "fish|3"); (-4, "below|9")]%string
                      None (inl PNone))
                   Demo.api "GetPage" (PInt 1) [] [] Demo.st0))).
  reflexivity.
Defined.

(** *** The values of a row *)

Lemma row_loop_zip (irispy : connection) (raw_row : list pyval) (cols : list string) :
  NoDup cols ->
  forall i row,
    (i + List.length cols <= List.length raw_row)%nat ->
    exists row',
      row_loop irispy raw_row i cols row = Ok row' /\
      (forall j col, nth_error cols j = Some col ->
         Dict.get col row' = nth_error raw_row (i + j)) /\
      (forall col, ~ In col cols -> Dict.get col row' = Dict.get col row).
Proof.
  induction cols as [|c cols IH]; intros Hnd i row Hlen; simpl in *.
  - exists row. split; [reflexivity|]. split; [|reflexivity].
    intros [|j] col; discriminate.
  - inversion Hnd as [|? ? Hc Hnd']; subst.
    rewrite Nat.add_1_r. unfold IRISList_get.
    destruct (nth_error raw_row i) as [x|] eqn:E.
    2: { apply nth_error_None in E. lia. }
    simpl. destruct (IH Hnd' (S i) (Dict.set c x row)) as [row' [Hr [Hin Hout]]]; [lia|].
    exists row'. split; [exact Hr|]. split.
    + intros [|j] col Hj; simpl in Hj.
      * inversion Hj; subst. rewrite (Hout col Hc), get_set, String.eqb_refl.
        now rewrite Nat.add_0_r.
      * rewrite (Hin j col Hj). now replace (i + S j)%nat with (S i + j)%nat by lia.
    + intros col Hn. rewrite Hout by tauto. rewrite get_set.
      destruct (String.eqb_spec col c); [subst; tauto | reflexivity].
Qed.

(** X3. A payload with at least as many fields as the schema has columns
    (the column names being distinct) gives a row whose keys are the column
    names and in which every column holds the field of its own position;
    fields past the last column are left out.  This does not depend on what
    [IRISList.get] does past the end of a payload. *)
Theorem full_payload_is_zipped_by_position (irispy : connection)
  (raw_row : list pyval) (cols : list string) :
  NoDup cols ->
  (List.length cols <= List.length raw_row)%nat ->
  exists row,
    row_loop irispy raw_row 0 cols [] = Ok row /\
    Dict.keys row = cols /\
    List.length row = List.length cols /\
    forall i col, nth_error cols i = Some col ->
      exists field, nth_error raw_row i = Some field /\ Dict.get col row = Some field.
Proof.
  intros Hnd Hlen.
  destruct (row_loop_zip irispy raw_row cols Hnd 0%nat []) as [row [Hr [Hin _]]]; [lia|].
  exists row. split; [exact Hr|].
  pose proof (row_loop_keys _ _ _ _ _ _ Hr) as Hk. simpl in Hk.
  rewrite first_occurrences_NoDup in Hk by (auto; now intros).
  split; [exact Hk|]. split.
  - rewrite <- (length_map fst row). fold (Dict.keys row). now rewrite Hk.
  - intros i col Hi. rewrite (Hin i col Hi). simpl.
    destruct (nth_error raw_row i) as [x|] eqn:E; [now exists x|].
    apply nth_error_None in E.
    assert (i < List.length cols)%nat by (apply nth_error_Some; congruence). lia.
Qed.

Lemma full_payload_witness :
  exists row,
    row_loop Demo.strict [PStr "fish"; PStr "3"; PStr "surplus"] 0
      ["entity"; "frequency"]%string [] = Ok row /\
    Dict.keys row = ["entity"; "frequency"]%string /\
    List.length row = 2%nat /\
    forall i col, nth_error ["entity"; "frequency"]%string i = Some col ->
      exists field,
        nth_error [PStr "fish"; PStr "3"; PStr "surplus"] i = Some field /\
        Dict.get col row = Some field.
Proof.
  apply (full_payload_is_zipped_by_position Demo.strict
           [PStr "fish"; PStr "3"; PStr "surplus"] ["entity"; "frequency"]%string).
  - repeat constructor; simpl; intuition discriminate.
  - simpl. lia.
Defined.

(** *** The other rules of binding *)

(** X4. A parameter that no named argument names and for whose slot the
    caller gave a positional argument is bound to that argument, whatever
    default the FormalSpec declares. *)
Theorem positional_argument_is_bound (irispy : connection) (api method : string)
  (domain_id : pyval) (args : list pyval) (kwargs : list (string * pyval))
  (st : iris_state) (i : nat) (argument : string) (x : pyval) :
  parameter irispy api method i argument ->
  argument <> EmptyString ->
  unnamed irispy kwargs argument ->
  nth_error args (i - 2) = Some x ->
  binds irispy api method domain_id args kwargs st i argument x.
Proof.
  intros Hpar Hne Hun Hx. apply binds_intro; [exact Hpar|].
  rewrite bind_argument_eq. destruct argument as [|c rest]; [congruence|].
  rewrite (get_kwupper_unnamed _ _ Hun).
  assert (i - 2 < List.length args)%nat by (apply nth_error_Some; congruence).
  destruct (Nat.ltb_spec (i - 2) (List.length args)) as [_|]; [|lia].
  unfold item. now rewrite Hx.
Qed.

Lemma positional_argument_witness :
  binds Demo.irispy Demo.api "GetTop" (PInt 1) [PInt 2; PInt 25]
    [("sorttype"%string, PInt 4)] Demo.st0 3 "pagesize:%Integer=10" (PInt 25).
Proof.
  apply positional_argument_is_bound.
  - split; [lia|]. eexists. split; reflexivity.
  - discriminate.
  - intros k v [H|[]] [_ Hup]. inversion H; subst. discriminate.
  - reflexivity.
Defined.



Lemma iknow_macro_loop_first (lines : global) (macro value : string) (j : Z) (line : string) :
  getString lines j = Some line ->
  In j (map fst lines) ->
  nth_error (Str.split " " line) 1 = Some macro ->
  nth_error (Str.split " " line) 2 = Some value ->
  forall fuel subscript,
    (count_after lines subscript < fuel)%nat ->
    subscript < j ->
    (forall j' line', In (j', line') lines -> subscript < j' < j ->
       nth_error (Str.split " " line') 1 <> Some macro) ->
    iknow_macro_loop fuel lines macro subscript = Ok (PStr value).
Proof.
  intros Hline Hj Hname Hvalue.
  induction fuel as [|fuel IH]; intros k Hfuel Hk Hnone; [lia|]. simpl.
  pose proof (nextSubscript_spec lines k) as Hn.
  destruct (nextSubscript lines k) as [j0|].
  - destruct Hn as [Hkj [Hin Hmin]]. specialize (Hmin j Hj Hk).
    destruct (Z.eq_dec j0 j) as [->|Hne].
    + rewrite Hline.
      assert (E : line_matches (Str.split " " line) macro = true)
        by now apply line_matches_spec.
      rewrite E. unfold item. now rewrite Hvalue.
    + destruct (getString_In _ _ Hin) as [l0 [-> Hl0]].
      destruct (line_matches (Str.split " " l0) macro) eqn:E.
      * apply line_matches_spec in E. destruct (Hnone j0 l0 Hl0); [lia | exact E].
      * apply IH; [|lia|].
        -- pose proof (count_after_step lines k j0 Hkj Hin). lia.
        -- intros j' line' Hin' Hj'. apply (Hnone j' line' Hin'). lia.
  - specialize (Hn j Hj). lia.
Qed.

(** X6. [iknow_macro] answers with the third field of the first line, in
    the order of the subscripts above 0, whose second field is the name
    asked for (the name without its [$$$] prefix); lines after it, whatever
    they define, are not read. *)
Theorem iknow_macro_first_definition_wins (gs : globals) (macro value : string)
  (j : Z) (line : string) :
  0 < j ->
  getString (gs INC) j = Some line ->
  nth_error (Str.split " " line) 1 = Some (strip_macro_prefix macro) ->
  nth_error (Str.split " " line) 2 = Some value ->
  (forall j' line', In (j', line') (gs INC) -> 0 < j' < j ->
     nth_error (Str.split " " line') 1 <> Some (strip_macro_prefix macro)) ->
  iknow_macro gs macro = Ok (PStr value).
Proof.
  intros Hj Hline Hname Hvalue Hnone. unfold iknow_macro.
  apply (iknow_macro_loop_first _ _ _ j line); try assumption.
  - clear - Hline. induction (gs INC) as [|[k v] g IH]; simpl in *; [discriminate|].
    destruct (Z.eqb_spec j k); [now left | right; now apply IH].
  - pose proof (count_after_le (gs INC) 0). lia.
Qed.

Lemma iknow_macro_first_witness :
  iknow_macro
    (store (Demo.fresh [(5, "#define SORTBYFREQUENCY 9"); (2, "#define SORTBYFREQUENCY 3");
                        (1, "#define FILTERONLY 1"); (0, "#define SORTBYFREQUENCY 0")]%string))
    "$$$SORTBYFREQUENCY"
  = Ok (PStr "3").
Proof.
  apply (iknow_macro_first_definition_wins _ _ _ 2 "#define SORTBYFREQUENCY 3").
  - lia.
  - reflexivity.
  - reflexivity.
  - reflexivity.
  - intros j' line' Hin Hj'. simpl in Hin.
    destruct Hin as [H|[H|[H|[H|[]]]]]; inversion H; subst; try lia. discriminate.
Defined.



(** *** Named arguments that name nothing, and letter case *)

Lemma full_args_kwupper_ext (irispy : connection) (gs : globals) (api method : string)
  (args : list pyval) (kwargs kwargs' : Dict.t pyval) :
  (forall j other, parameter irispy api method j other ->
     Dict.get (upper irispy (declared_name other)) (kwupper irispy kwargs)
     = Dict.get (upper irispy (declared_name other)) (kwupper irispy kwargs')) ->
  full_args irispy gs api method args kwargs = full_args irispy gs api method args kwargs'.
Proof.
  intros H. unfold full_args.
  destruct (OpenId irispy _ _) as [proxy|] eqn:Hp; [|reflexivity].
  apply full_args_loop_ext. intros j a Ha Hj. simpl in *.
  rewrite !bind_argument_eq. destruct a as [|c rest]; [reflexivity|].
  rewrite (H j (String c rest)); [reflexivity|].
  split; [exact Hj|]. exists proxy. unfold parameter. now split.
Qed.

Lemma iknow_query_ext (irispy : connection) (api method : string) (domain_id : pyval)
  (args : list pyval) (kwargs kwargs' : list (string * pyval)) (st : iris_state) :
  Dict.get "outGlo" (with_outGlo kwargs) = Dict.get "outGlo" (with_outGlo kwargs') ->
  full_args irispy (store st) api method args (with_outGlo kwargs)
  = full_args irispy (store st) api method args (with_outGlo kwargs') ->
  iknow_query irispy api method domain_id args kwargs st
  = iknow_query irispy api method domain_id args kwargs' st.
Proof.
  intros Ho Hf. destruct (outGlo_defined kwargs) as [outGlo H].
  assert (H' : Dict.get "outGlo" (with_outGlo kwargs') = Some outGlo) by congruence.
  now rewrite (iknow_query_eq _ _ _ _ _ _ _ _ H), (iknow_query_eq _ _ _ _ _ _ _ _ H'), Hf.
Qed.

(** X8. A named argument that names no parameter of the method (and is
    not [outGlo]) is dropped without a word: the dispatch is the one that
    the call without it gives. *)
Theorem stray_named_argument_is_ignored (irispy : connection) (api method : string)
  (domain_id : pyval) (args : list pyval) (front back : list (string * pyval))
  (k : string) (v : pyval) (st : iris_state) :
  NoDup (map fst (front ++ (k, v) :: back)) ->
  k <> "outGlo"%string ->
  (forall j other, parameter irispy api method j other ->
     upper irispy (declared_name other) <> upper irispy k) ->
  iknow_query irispy api method domain_id args (front ++ (k, v) :: back) st
  = iknow_query irispy api method domain_id args (front ++ back) st.
Proof.
  intros Hnd Hne Hstray. apply iknow_query_ext.
  - now apply outGlo_unaffected.
  - apply full_args_kwupper_ext. intros j other Hpar.
    apply get_kwupper_other; [exact Hnd | now apply (Hstray j)].
Qed.

Lemma stray_named_argument_witness :
  iknow_query Demo.paged Demo.api "GetPage" (PInt 1) [PInt 2]
    ([("pagesize"%string, PInt 5)] ++ ("pagsize"%string, PInt 50) :: []) Demo.st0
  = iknow_query Demo.paged Demo.api "GetPage" (PInt 1) [PInt 2]
      ([("pagesize"%string, PInt 5)] ++ []) Demo.st0.
Proof.
  apply stray_named_argument_is_ignored.
  - repeat constructor; simpl; intuition discriminate.
  - discriminate.
  - intros j other [Hge [proxy [Hp Hj]]].
    vm_compute in Hp. inversion Hp; subst proxy. clear Hp.
    do 4 (destruct j as [|j]; [try lia; vm_compute in Hj; inversion Hj; discriminate|]).
    vm_compute in Hj. destruct j; discriminate.
Defined.

(** X9. The letter case of a named argument's name does not matter: a
    name replaced by another with the same [upper()] (one that differs from
    it in the case of its letters only) gives the same dispatch.  ([outGlo]
    is the exception: it is reserved in this spelling alone.) *)
Theorem named_argument_case_is_ignored (irispy : connection) (api method : string)
  (domain_id : pyval) (args : list pyval) (front back : list (string * pyval))
  (k k' : string) (v : pyval) (st : iris_state) :
  NoDup (map fst (front ++ (k, v) :: back)) ->
  NoDup (map fst (front ++ (k', v) :: back)) ->
  k <> "outGlo"%string ->
  k' <> "outGlo"%string ->
  upper irispy k = upper irispy k' ->
  iknow_query irispy api method domain_id args (front ++ (k, v) :: back) st
  = iknow_query irispy api method domain_id args (front ++ (k', v) :: back) st.
Proof.
  intros Hnd Hnd' Hk Hk' Hup. apply iknow_query_ext.
  - now rewrite !outGlo_unaffected.
  - apply full_args_kwupper_ext. intros j other _. f_equal.
    rewrite (kwupper_with_outGlo _ Hnd), (kwupper_with_outGlo _ Hnd').
    unfold kwupper. rewrite !kwupper_loop_app. simpl.
    destruct (String.eqb_spec k "outGlo"); [congruence|].
    destruct (String.eqb_spec k' "outGlo"); [congruence|].
    now rewrite Hup.
Qed.

Lemma named_argument_case_witness :
  iknow_query Demo.irispy Demo.api "GetTop" (PInt 1) []
    ([("Page"%string, PInt 2)] ++ ("pageSize"%string, PInt 5)
       :: [("outGlo"%string, PStr "^mine")]) Demo.st0
  = iknow_query Demo.irispy Demo.api "GetTop" (PInt 1) []
      ([("Page"%string, PInt 2)] ++ ("PAGESIZE"%string, PInt 5)
         :: [("outGlo"%string, PStr "^mine")]) Demo.st0.
Proof.
  apply named_argument_case_is_ignored.
  - repeat constructor; simpl; intuition discriminate.
  - repeat constructor; simpl; intuition discriminate.
  - discriminate.
  - discriminate.
  - reflexivity.
Defined.

(** The renamed argument is one that counts: under either name [GetTop] is
    called with 5 for [pagesize], not with the default of 10. *)
Lemma renamed_argument_is_bound :
  calls (snd (iknow_query Demo.irispy Demo.api "GetTop" (PInt 1) []
                [("Page"%string, PInt 2); ("pageSize"%string, PInt 5);
                 ("outGlo"%string, PStr "^mine")] Demo.st0))
  = [Call Demo.api "GetTop"
       [PStr "^mine"; PInt 1; PInt 2; PInt 5; PStr ""; PStr "1"; PStr "3"]] /\
  calls (snd (iknow_query Demo.irispy Demo.api "GetTop" (PInt 1) []
                [("Page"%string, PInt 2); ("PAGESIZE"%string, PInt 5);
                 ("outGlo"%string, PStr "^mine")] Demo.st0))
  = [Call Demo.api "GetTop"
       [PStr "^mine"; PInt 1; PInt 2; PInt 5; PStr ""; PStr "1"; PStr "3"]].
Proof. split; reflexivity. Qed.

(** *** The remote call *)

Lemma get_rev_NoDup {V : Type} (k : string) (l : list (string * V)) :
  NoDup (map fst l) -> Dict.get k (rev l) = Dict.get k l.
Proof.
  induction l as [|[k0 v0] l IH]; intros Hnd; simpl in *; [reflexivity|].
  inversion Hnd as [|? ? Hk Hnd']; subst. rewrite get_app, (IH Hnd'). simpl.
  destruct (String.eqb_spec k k0) as [->|_].
  - assert (E : Dict.get k0 l = None).
    { clear - Hk. induction l as [|[k1 v1] l IH]; simpl in *; [reflexivity|].
      destruct (String.eqb_spec k0 k1); [subst; tauto | apply IH; tauto]. }
    now rewrite E.
  - destruct (Dict.get k l); reflexivity.
Qed.

Lemma outGlo_is_output_global (kwargs : list (string * pyval)) :
  NoDup (map fst kwargs) ->
  Dict.get "outGlo" (with_outGlo kwargs) = Some (output_global kwargs).
Proof.
  intros Hnd. unfold with_outGlo, output_global.
  rewrite get_update, (get_rev_NoDup _ _ Hnd).
  destruct (Dict.get "outGlo" kwargs); reflexivity.
Qed.

(** X10. A dispatch calls the remote method at most once.  When it raises
    before the call the server is as it was.  Otherwise the one call goes
    to the method asked for, with the output global (the caller's [outGlo],
    or [^result]), then the domain, then one value for each FormalSpec entry
    after the first two. *)
Theorem one_remote_call (irispy : connection) (api method : string) (domain_id : pyval)
  (args : list pyval) (kwargs : list (string * pyval)) (st st' : iris_state)
  (r : outcome (list (Dict.t pyval))) :
  NoDup (map fst kwargs) ->
  iknow_query irispy api method domain_id args kwargs st = (r, st') ->
  (st' = st /\ exists e, r = Raise e) \/
  (exists proxy v,
     OpenId irispy "%Dictionary.CompiledMethod" (api ++ "||" ++ method)%string = Some proxy /\
     List.length v = (List.length (Str.split "," (proxy "FormalSpec"%string)) - 2)%nat /\
     calls st' = calls st ++ [Call api method (output_global kwargs :: domain_id :: v)]).
Proof.
  intros Hnd H.
  pose proof (iknow_query_fuel irispy api method domain_id args kwargs st) as Hfuel.
  rewrite H in Hfuel. simpl in Hfuel.
  rewrite (iknow_query_eq _ _ _ _ _ _ _ _ (outGlo_is_output_global _ Hnd)) in H.
  destruct (return_cols irispy api method) as [cols|e|].
  2: { inversion H; subst. left. split; [reflexivity | now exists e]. }
  2: { inversion H; subst. congruence. }
  destruct (full_args _ _ _ _ _ _) as [v|e|] eqn:Hv.
  2: { inversion H; subst. left. split; [reflexivity | now exists e]. }
  2: { inversion H; subst. congruence. }
  right. unfold full_args in Hv.
  destruct (OpenId irispy "%Dictionary.CompiledMethod" _) as [proxy|]; [|discriminate].
  exists proxy, v. split; [reflexivity|].
  apply full_args_loop_nth in Hv. split; [apply Hv|].
  cbv zeta in H.
  destruct (snd (classMethodVoid _ _ _ _ _)); [now inversion H|].
  destruct (result_loop _ _ _ _ _ _); now inversion H.
Qed.

Lemma one_remote_call_witness :
  (snd (iknow_query Demo.failing Demo.api "GetTop" (PInt 1) [PInt 2]
          [("outGlo"%string, PStr "^mine")] Demo.st0) = Demo.st0 /\
   exists e, @Raise (list (Dict.t pyval)) (RemoteError "<STORE>") = Raise e) \/
  (exists proxy v,
     OpenId Demo.failing "%Dictionary.CompiledMethod" "%iKnow.Queries.EntityAPI||GetTop"
     = Some proxy /\
     List.length v = (List.length (Str.split "," (proxy "FormalSpec"%string)) - 2)%nat /\
     calls (snd (iknow_query Demo.failing Demo.api "GetTop" (PInt 1) [PInt 2]
                   [("outGlo"%string, PStr "^mine")] Demo.st0))
     = calls Demo.st0 ++ [Call Demo.api "GetTop" (PStr "^mine" :: PInt 1 :: v)]).
Proof.
  apply (one_remote_call Demo.failing Demo.api "GetTop" (PInt 1) [PInt 2]
           [("outGlo"%string, PStr "^mine")] Demo.st0).
  - repeat constructor. simpl. tauto.
  - reflexivity.
Defined.

(** *** The two versions of the dispatcher *)

Lemma skipn_nth_error {A : Type} (l : list A) (n : nat) (x : A) :
  nth_error l n = Some x -> skipn n l = x :: skipn (S n) l.
Proof.
  revert n. induction l as [|a l IH]; intros [|n] H; simpl in *; try discriminate.
  - now inversion H.
  - now apply IH.
Qed.

Lemma full_args_loop_positional {irispy : connection} (gs : globals) (args : list pyval) (raw : list string) :
  forall i acc,
    (2 <= i)%nat ->
    Forall (fun a => a <> EmptyString) raw ->
    (i - 2 + List.length raw = List.length args)%nat ->
    full_args_loop irispy gs [] args i raw acc = Ok (acc ++ skipn (i - 2) args).
Proof.
  induction raw as [|a raw IH]; intros i acc Hi Hne Hlen; simpl in *.
  - rewrite skipn_all2 by lia. now rewrite app_nil_r.
  - destruct (Nat.ltb_spec i 2) as [|_]; [lia|].
    inversion Hne as [|? ? Ha Hne']; subst.
    rewrite bind_argument_eq. destruct a as [|c rest]; [congruence|]. simpl Dict.get.
    destruct (Nat.ltb_spec (i - 2) (List.length args)) as [_|]; [|lia].
    unfold item. destruct (nth_error args (i - 2)) as [x|] eqn:E.
    2: { apply nth_error_None in E. lia. }
    cbn [bind]. rewrite (IH (S i) _ ltac:(lia) Hne' ltac:(lia)).
    replace (S i - 2)%nat with (S (i - 2)) by lia.
    rewrite (skipn_nth_error _ _ _ E), <- app_assoc. reflexivity.
Qed.

(** X11. Called with positional arguments only, one for every parameter
    that the method declares after the output global and the domain, the
    dispatcher does exactly what its first version does with the same
    arguments: the FormalSpec adds nothing and the arguments are passed on as
    they are.  (The entries of the FormalSpec are taken to be non-empty.) *)
Theorem versions_agree_on_full_positional_calls (irispy : connection) (api method : string)
  (domain_id : pyval) (args : list pyval) (outGlo : option pyval) (st : iris_state)
  (proxy : string -> string) :
  OpenId irispy "%Dictionary.CompiledMethod" (api ++ "||" ++ method)%string = Some proxy ->
  Forall (fun a => a <> EmptyString) (skipn 2 (Str.split "," (proxy "FormalSpec"%string))) ->
  List.length args = (List.length (Str.split "," (proxy "FormalSpec"%string)) - 2)%nat ->
  iknow_query irispy api method domain_id args
    match outGlo with Some glo => [("outGlo"%string, glo)] | None => [] end st
  = Earlier.iknow_query irispy api method domain_id args outGlo st.
Proof.
  intros Hp Hne Hlen.
  set (kwargs := match outGlo with Some glo => [("outGlo"%string, glo)] | None => [] end).
  set (glo := match outGlo with Some glo => glo | None => PStr "^result" end).
  assert (Ho : Dict.get "outGlo" (with_outGlo kwargs) = Some glo)
    by (unfold kwargs, glo; destruct outGlo; reflexivity).
  assert (Hkw : kwupper irispy (with_outGlo kwargs) = [])
    by (unfold kwargs; destruct outGlo; reflexivity).
  assert (Hv : full_args irispy (store st) api method args (with_outGlo kwargs) = Ok args).
  { unfold full_args. rewrite Hp, Hkw.
    destruct (Str.split "," (proxy "FormalSpec"%string)) as [|a0 [|a1 raw]]; simpl in *.
    - destruct args; [reflexivity | discriminate].
    - destruct args; [reflexivity | discriminate].
    - rewrite (full_args_loop_positional (store st) args raw 2 []); [reflexivity|lia|exact Hne|].
      simpl. lia. }
  rewrite (iknow_query_eq _ _ _ _ _ _ _ _ Ho), Hv. unfold Earlier.iknow_query. fold glo.
  destruct (return_cols irispy api method) as [cols| |]; try reflexivity. cbv zeta.
  destruct (classMethodVoid irispy api method (glo :: domain_id :: args) (store st))
    as [gs [e|]]; cbn [fst snd]; [reflexivity|].
  destruct (result_loop (S (List.length (gs glo))) irispy (gs glo) cols 0 []); reflexivity.
Qed.

Lemma versions_agree_witness :
  iknow_query Demo.paged Demo.api "GetPage" (PInt 1) [PInt 2; PInt 25] [] Demo.st0
  = Earlier.iknow_query Demo.paged Demo.api "GetPage" (PInt 1) [PInt 2; PInt 25] None Demo.st0.
Proof.
  apply (versions_agree_on_full_positional_calls Demo.paged Demo.api "GetPage" (PInt 1)
           [PInt 2; PInt 25] None Demo.st0
           (fun p => if String.eqb p "FormalSpec"
                     then "&result,domainid:%Integer,page:%Integer=1,pagesize:%Integer=10"%string
                     else EmptyString)).
  - reflexivity.
  - repeat constructor; discriminate.
  - reflexivity.
Defined.

(** *** What is raised before the remote call *)

Lemma iknow_macro_loop_raises (lines : global) (macro : string) (e : exn) :
  forall fuel subscript,
    iknow_macro_loop fuel lines macro subscript = Raise e -> e = IndexError.
Proof.
  induction fuel as [|fuel IH]; intros k; simpl; [discriminate|].
  pose proof (nextSubscript_spec lines k) as Hn.
  destruct (nextSubscript lines k) as [j|]; [|discriminate].
  destruct Hn as [_ [Hin _]]. destruct (getString_In _ _ Hin) as [line [-> _]].
  destruct (line_matches _ macro); [|apply IH].
  unfold item. destruct (nth_error _ 2); simpl; intros H; now inversion H.
Qed.

Lemma bind_argument_raises {irispy : connection} (gs : globals) (kw : Dict.t pyval) (args : list pyval)
  (i : nat) (argument : string) (e : exn) :
  bind_argument irispy gs kw args i argument = Raise e -> e = IndexError.
Proof.
  rewrite bind_argument_eq. destruct argument as [|c rest]; [intros H; now inversion H|].
  destruct (Dict.get _ kw); [discriminate|].
  destruct (Nat.ltb_spec (i - 2) (List.length args)) as [Hlt|_].
  - unfold item. destruct (nth_error args (i - 2)) eqn:E; [discriminate|].
    apply nth_error_None in E. lia.
  - unfold default_value. destruct (declared_default _) as [d|]; [|discriminate].
    destruct (String.eqb d Str.empty_literal); [discriminate|].
    destruct (String.eqb _ "$$$"); [|discriminate].
    unfold iknow_macro. apply iknow_macro_loop_raises.
Qed.

Lemma full_args_loop_raises {irispy : connection} (gs : globals) (kw : Dict.t pyval) (args : list pyval)
  (raw : list string) (e : exn) :
  forall i acc, full_args_loop irispy gs kw args i raw acc = Raise e -> e = IndexError.
Proof.
  induction raw as [|a raw IH]; intros i acc; simpl; [discriminate|].
  destruct (Nat.ltb i 2); [apply IH|].
  destruct (bind_argument irispy gs kw args i a) as [x|e'|] eqn:E; simpl.
  - apply IH.
  - intros H. inversion H; subst. now apply bind_argument_raises in E.
  - discriminate.
Qed.

Lemma full_args_loop_empty_entry {irispy : connection} (gs : globals) (kw : Dict.t pyval) (args : list pyval)
  (raw : list string) :
  forall i acc j,
    (2 <= i)%nat ->
    nth_error raw j = Some EmptyString ->
    full_args_loop irispy gs kw args i raw acc = Raise IndexError.
Proof.
  induction raw as [|a raw IH]; intros i acc j Hi Hj; [destruct j; discriminate|]. simpl.
  destruct (Nat.ltb_spec i 2) as [|_]; [lia|].
  destruct (bind_argument irispy gs kw args i a) as [x|e|] eqn:E; simpl.
  - destruct j as [|j]; simpl in Hj.
    + inversion Hj; subst. rewrite bind_argument_eq in E. discriminate.
    + apply (IH _ _ j); [lia | exact Hj].
  - now rewrite (bind_argument_raises _ _ _ _ _ _ E).
  - now apply bind_argument_fuel in E.
Qed.

(** X12. An empty entry in the FormalSpec after its first two makes the
    dispatch raise [IndexError] (from [argument[0]]), whatever arguments the
    caller gives; no remote method is called and the server is as it was.
    (The result schema is taken to resolve; it is read first.) *)
Theorem empty_FormalSpec_entry_raises (irispy : connection) (api method : string)
  (domain_id : pyval) (args : list pyval) (kwargs : list (string * pyval))
  (st : iris_state) (cols : list string) (i : nat) :
  return_cols irispy api method = Ok cols ->
  parameter irispy api method i EmptyString ->
  iknow_query irispy api method domain_id args kwargs st = (Raise IndexError, st).
Proof.
  intros Hc [Hge [proxy [Hp Hi]]]. destruct (outGlo_defined kwargs) as [outGlo Ho].
  rewrite (iknow_query_eq _ _ _ _ _ _ _ _ Ho), Hc. unfold full_args. rewrite Hp.
  destruct (Str.split "," (proxy "FormalSpec"%string)) as [|a0 [|a1 raw]];
    [destruct i; discriminate | destruct i as [|[|i]]; try lia; discriminate |].
  destruct i as [|[|i]]; try lia. simpl in Hi. simpl full_args_loop.
  now rewrite (full_args_loop_empty_entry _ _ _ raw 2 [] i ltac:(lia) Hi).
Qed.

Lemma empty_FormalSpec_entry_witness :
  iknow_query
    (Demo.server
       [Demo.GetPageRT;
        (("%Dictionary.CompiledMethod", "%iKnow.Queries.EntityAPI||GetPage"),
         ("FormalSpec", "&result,domainid:%Integer,page:%Integer=1,"))]%string
       Demo.page_rows None (inl PNone))
    Demo.api "GetPage" (PInt 1) [PInt 2; PInt 25] [] Demo.st0
  = (Raise IndexError, Demo.st0).
Proof.
  apply (empty_FormalSpec_entry_raises _ _ _ _ _ _ _ ["entity"; "frequency"]%string 3).
  - reflexivity.
  - split; [lia|]. eexists. split; reflexivity.
Defined.

(** X13. Once the two dictionary objects exist, the only exception that
    the dispatcher raises of its own, before the remote method is called, is
    [IndexError], and the server is then as it was: a dispatch that ends
    without having called the remote method ended so. *)
Theorem only_IndexError_before_the_call (irispy : connection) (api method : string)
  (domain_id : pyval) (args : list pyval) (kwargs : list (string * pyval))
  (st st' : iris_state) (r : outcome (list (Dict.t pyval)))
  (schema spec : string -> string) :
  OpenId irispy "%Dictionary.ParameterDefinition" (api ++ "||" ++ method ++ "RT")%string
  = Some schema ->
  OpenId irispy "%Dictionary.CompiledMethod" (api ++ "||" ++ method)%string = Some spec ->
  iknow_query irispy api method domain_id args kwargs st = (r, st') ->
  calls st' = calls st ->
  r = Raise IndexError /\ st' = st.
Proof.
  intros Hs Hp H Hcalls. destruct (outGlo_defined kwargs) as [outGlo Ho].
  rewrite (iknow_query_eq _ _ _ _ _ _ _ _ Ho), return_cols_eq, Hs in H.
  destruct (forallb _ _); [|now inversion H].
  pose proof (full_args_fuel irispy (store st) api method args (with_outGlo kwargs)) as Hf.
  destruct (full_args _ _ _ _ _ _) as [v|e|] eqn:Hv; [| |congruence].
  - exfalso. cbv zeta in H.
    assert (Hc : calls st' = calls st ++ [Call api method (outGlo :: domain_id :: v)]).
    { destruct (snd (classMethodVoid _ _ _ _ _)); [now inversion H|].
      destruct (result_loop _ _ _ _ _ _); now inversion H. }
    rewrite Hcalls in Hc. now apply app_one_neq in Hc.
  - unfold full_args in Hv. rewrite Hp in Hv. apply full_args_loop_raises in Hv.
    subst e. now inversion H.
Qed.

Lemma only_IndexError_witness :
  fst (iknow_query Demo.irispy Demo.api "GetTop" (PInt 1) [] []
         (Demo.fresh Demo.broken_include_file)) = Raise IndexError /\
  snd (iknow_query Demo.irispy Demo.api "GetTop" (PInt 1) [] []
         (Demo.fresh Demo.broken_include_file)) = Demo.fresh Demo.broken_include_file.
Proof.
  apply (only_IndexError_before_the_call Demo.irispy Demo.api "GetTop" (PInt 1) [] []
           (Demo.fresh Demo.broken_include_file)
           (snd (iknow_query Demo.irispy Demo.api "GetTop" (PInt 1) [] []
                   (Demo.fresh Demo.broken_include_file)))
           (fst (iknow_query Demo.irispy Demo.api "GetTop" (PInt 1) [] []
                   (Demo.fresh Demo.broken_include_file)))
           (fun p => if String.eqb p "Default"
                     then "entUniId:%Integer,entity:%String,frequency:%Integer,spread:%Integer"%string
                     else EmptyString)
           (fun p => if String.eqb p "FormalSpec"
                     then ("&result,domainid:%Integer,page:%Integer=1,pagesize:%Integer=10,filter:%iKnow.Filters.Filter="
                           ++ Str.empty_literal
                           ++ ",filtermode:%Integer=$$$FILTERONLY,sorttype:%Integer=$$$SORTBYFREQUENCY")%string
                     else EmptyString)).
  - reflexivity.
  - reflexivity.
  - reflexivity.
  - reflexivity.
Defined.
